(** * pillama: the Hailo service behind the Ollama-compatible gateway

    A shallow embedding of [python_service/hailo_service.py]: the
    [HailoService] class (device and model handles, [load_model],
    [chat_completion], [text_completion], [get_model_info],
    [get_context_usage], [release]) and the request handlers of
    [WebSocketServer].

    The accelerator runtime ([hailo_platform]) and the file system are
    external collaborators.  They are represented by a [Platform] record of
    oracles; every call made to a collaborator is appended to a call log, and
    each oracle receives the log so far, so that a collaborator may answer
    differently at every call. *)

From Stdlib Require Import ZArith QArith.
From stdpp Require Import base option list strings gmap.

Local Open Scope string_scope.
Local Open Scope list_scope.

(** ** Collaborator objects *)

(** A [VDevice] object; [vd_id] is the identity of the Python object. *)
Record VDevice := mkVDevice { vd_id : nat }.

(** An [LLM] object, created by [LLM(vdevice=..., hef_path=...)].
    [llm_id] is the identity of the Python object and [llm_hef] the
    constructor argument.  [llm_name] is a ghost field: the [model_name]
    argument of the [load_model] call that constructed the object. *)
Record LLM := mkLLM { llm_id : nat; llm_hef : string; llm_name : string }.

#[global] Instance VDevice_eq_dec : EqDecision VDevice.
Proof. solve_decision. Defined.
#[global] Instance LLM_eq_dec : EqDecision LLM.
Proof. solve_decision. Defined.

(** What a collaborator call does: it returns, or it raises an exception
    whose [str(e)] is the message. *)
Inductive outcome := Returns | Raises (msg : string).

(** One chat message, [{"role": ..., "content": ...}]. *)
Record Message := mkMessage { role : string; content : string }.

(** The keyword arguments handed to [llm.generate]. *)
Record gen_kwargs := mkKwargs {
  kw_prompt : list Message;
  kw_temperature : Q;
  kw_max_generated_tokens : Z;
  kw_seed : option Z
}.

(** What iterating a generation does: the tokens it yields, then either
    normal exhaustion ([None]) or an exception ([Some msg]).  A fault of
    [generate] itself or of entering the [with] block is [([], Some msg)]. *)
Definition generation := (list string * option string)%type.

(** The log of collaborator calls, oldest first. *)
Inductive call :=
  | CVDeviceInit (o : outcome)                    (* VDevice() *)
  | CPathExists (p : string) (b : bool)           (* Path(p).exists() *)
  | CPathStat (p : string) (size : Z)             (* Path(p).stat().st_size *)
  | CLLMInit (h : LLM) (o : outcome)              (* LLM(vdevice=, hef_path=) *)
  | CLLMRelease (h : LLM) (o : outcome)           (* llm.release() *)
  | CGenerate (h : LLM) (kw : gen_kwargs) (g : generation)
                                                  (* iterating llm.generate with kw *)
  | CContextUsage (h : LLM) (r : option Z)        (* llm.get_context_usage_size() *)
  | CVDeviceRelease (d : VDevice) (o : outcome).  (* vdevice.release() *)

(** The collaborators.  [HAILO_AVAILABLE] is the module-level flag set by
    the guarded import. *)
Record Platform := mkPlatform {
  HAILO_AVAILABLE : bool;
  vdevice_init : outcome;
  path_exists : list call -> string -> bool;
  path_size : list call -> string -> Z;
  llm_init : list call -> string -> outcome;
  llm_release : list call -> LLM -> outcome;
  llm_generate : list call -> LLM -> gen_kwargs -> generation;
  llm_get_context_usage_size : list call -> LLM -> option Z;
  vdevice_release : list call -> VDevice -> outcome;
  (* int(elapsed_time * 1e9) as measured around the generation *)
  elapsed_ns : list call -> Z
}.

(** ** The service object *)

(** A model's entry in the configuration: a JSON object with string values
    ([hef_path], [family], [parameter_size], [format]). *)
Abbreviation model_config := (gmap string string).

Record HailoService := mkService {
  vdevice : option VDevice;
  llm : option LLM;
  current_model : option string;
  models_config : gmap string model_config;
  default_model : option string   (* config['hailo'].get('default_model') *)
}.

(** The service object together with the log of collaborator calls. *)
Record Machine := mkMachine { self : HailoService; calls : list call }.

Definition set_vdevice (v : option VDevice) (s : HailoService) : HailoService :=
  mkService v (llm s) (current_model s) (models_config s) (default_model s).
Definition set_llm (l : option LLM) (s : HailoService) : HailoService :=
  mkService (vdevice s) l (current_model s) (models_config s) (default_model s).
Definition set_current_model (c : option string) (s : HailoService) : HailoService :=
  mkService (vdevice s) (llm s) c (models_config s) (default_model s).

(** ** A state and exception monad for the methods *)

Inductive result (A : Type) := Ok (a : A) | Raise (e : string).
Arguments Ok {A} a.
Arguments Raise {A} e.

Definition M (A : Type) : Type := Machine -> result A * Machine.

Definition ret {A} (a : A) : M A := fun m => (Ok a, m).
Definition raise {A} (e : string) : M A := fun m => (Raise e, m).
Definition bind {A B} (c : M A) (k : A -> M B) : M B :=
  fun m => match c m with
           | (Ok a, m') => k a m'
           | (Raise e, m') => (Raise e, m')
           end.
(** [try: c except Exception as e: h e] *)
Definition try_except {A} (c : M A) (h : string -> M A) : M A :=
  fun m => match c m with
           | (Ok a, m') => (Ok a, m')
           | (Raise e, m') => h e m'
           end.

(** The methods are written with stdpp's monad notations: [x ← c; k] and
    [c;; k]. *)
#[global] Instance M_ret : MRet M := @ret.
#[global] Instance M_bind : MBind M := fun A B k c => bind c k.

Definition get_self : M HailoService := fun m => (Ok (self m), m).
Definition modify_self (f : HailoService -> HailoService) : M unit :=
  fun m => (Ok tt, mkMachine (f (self m)) (calls m)).
Definition get_calls : M (list call) := fun m => (Ok (calls m), m).
Definition log (c : call) : M unit :=
  fun m => (Ok tt, mkMachine (self m) (calls m ++ [c])).

(** An outcome of a collaborator call, as control flow. *)
Definition of_outcome (o : outcome) : M unit :=
  match o with Returns => ret tt | Raises e => raise e end.

(** ** JSON values *)

(** What [json.loads] leaves under the [model] key of a request: any JSON
    value.  For a number, a list and a dict, [text] is what [str()] prints
    for it. *)
Inductive jvalue :=
  | JNull                      (* None *)
  | JBool (b : bool)
  | JNumber (text : string)
  | JString (s : string)
  | JArray (text : string)     (* a list *)
  | JObject (text : string).   (* a dict *)

#[global] Instance jvalue_eq_dec : EqDecision jvalue.
Proof. solve_decision. Defined.

(** [f'{v}'] *)
Definition jvalue_str (v : jvalue) : string :=
  match v with
  | JNull => "None"
  | JBool true => "True"
  | JBool false => "False"
  | JNumber text | JArray text | JObject text => text
  | JString s => s
  end.

(** Hashing a key, which [dict.get] does before it looks the key up: a list
    and a dict cannot be hashed. *)
Definition hash_key (key : jvalue) : M unit :=
  match key with
  | JArray _ => raise "unhashable type: 'list'"
  | JObject _ => raise "unhashable type: 'dict'"
  | _ => ret tt
  end.

(** [self.models_config.get(key)]: the keys of the configuration are
    strings, so only a string can be found. *)
Definition models_config_get (key : jvalue) : M (option (gmap string string)) :=
  hash_key key;;
  s ← get_self;
  match key with
  | JString name => ret (models_config s !! name)
  | _ => ret None
  end.

(** ** Collaborator calls, logged *)

Section Service.

Variable P : Platform.

(** [Path(p).exists()] *)
Definition Path_exists (p : string) : M bool :=
  cs ← get_calls;
  let b := path_exists P cs p in
  log (CPathExists p b);; ret b.

(** [Path(p).stat().st_size] *)
Definition Path_stat_size (p : string) : M Z :=
  cs ← get_calls;
  let n := path_size P cs p in
  log (CPathStat p n);; ret n.

(** [LLM(vdevice=self.vdevice, hef_path=hef_path)] for [model_name]: a fresh
    object, whose identity is its position in the log. *)
Definition LLM_new (model_name hef_path : string) : M LLM :=
  cs ← get_calls;
  let h := mkLLM (length cs) hef_path model_name in
  let o := llm_init P cs hef_path in
  log (CLLMInit h o);; of_outcome o;; ret h.

(** [h.release()] *)
Definition LLM_release (h : LLM) : M unit :=
  cs ← get_calls;
  let o := llm_release P cs h in
  log (CLLMRelease h o);; of_outcome o.

(** [d.release()] *)
Definition VDevice_release (d : VDevice) : M unit :=
  cs ← get_calls;
  let o := vdevice_release P cs d in
  log (CVDeviceRelease d o);; of_outcome o.

(** ** [HailoService.__init__] *)

Definition init (models : gmap string model_config) (dflt : option string) : Machine :=
  let s0 := mkService None None None models dflt in
  if HAILO_AVAILABLE P then
    match vdevice_init P with
    | Returns => mkMachine (set_vdevice (Some (mkVDevice 0)) s0) [CVDeviceInit Returns]
    | Raises e => mkMachine s0 [CVDeviceInit (Raises e)]
    end
  else mkMachine s0 [].

(** ** [HailoService.load_model] *)

(** Python truthiness of a string and of a dict *)
Definition truthy_str (s : string) : bool := negb (bool_decide (s = "")).
Definition truthy_dict (d : model_config) : bool := negb (bool_decide (d = ∅)).

Definition load_model (model_name : string) : M bool :=
  s ← get_self;
  if negb (HAILO_AVAILABLE P) || bool_decide (vdevice s = None) then ret false
  else
  (* If model is already loaded, skip *)
  if bool_decide (current_model s = Some model_name)
     && negb (bool_decide (llm s = None)) then ret true
  else
  (* Get model config *)
  match models_config s !! model_name with
  | None => ret false
  | Some mc =>
    if negb (truthy_dict mc) then ret false
    else
    match mc !! "hef_path" with
    | None => ret false
    | Some hef_path =>
      if negb (truthy_str hef_path) then ret false
      else
      ex ← Path_exists hef_path;
      if negb ex then ret false
      else
      try_except
        ((* Release existing LLM if loaded *)
         match llm s with
         | Some old => LLM_release old;; modify_self (set_llm None)
         | None => ret tt
         end;;
         (* Load new model *)
         h ← LLM_new model_name hef_path;
         modify_self (set_llm (Some h));;
         modify_self (set_current_model (Some model_name));;
         ret true)
        (fun _ => ret false)
    end
  end.

(** ** [HailoService.get_context_usage] *)

Definition get_context_usage : M Z :=
  s ← get_self;
  match llm s with
  | Some h =>
    if HAILO_AVAILABLE P then
      cs ← get_calls;
      let r := llm_get_context_usage_size P cs h in
      log (CContextUsage h r);;
      match r with Some n => ret n | None => ret 0%Z end
    else ret 0%Z
  | None => ret 0%Z
  end.

(** ** [HailoService.release] *)

Definition release : M unit :=
  s ← get_self;
  match llm s with
  | Some h => LLM_release h;; modify_self (set_llm None)
  | None => ret tt
  end;;
  s ← get_self;
  match vdevice s with
  | Some d => VDevice_release d;; modify_self (set_vdevice None)
  | None => ret tt
  end.

(** ** Events *)

(** The statistics of the final message of a generation. *)
Record stats := mkStats { eval_count : nat; eval_duration : Z; total_duration : Z }.

(** [HailoService.get_model_info]'s dictionary. *)
Record model_info := mkInfo {
  mi_name : string; mi_family : string; mi_parameter_size : string;
  mi_format : string; mi_hef_path : option string
}.

(** One entry of [HailoService.list_models]. *)
Record model_entry := mkEntry {
  me_name : string; me_size : Z; me_family : string;
  me_parameter_size : string; me_format : string
}.

(** The dictionaries yielded by [chat_completion] and sent on the socket. *)
Inductive event :=
  | Token (c : string)                        (* type token, done False *)
  | Complete (c : string) (st : option stats) (* type complete, done True *)
  | Error (c : string)                        (* type error *)
  | Models (data : list model_entry)          (* type models *)
  | ModelInfo (data : model_info)             (* type model_info *)
  | ContextUsage (usage : Z).                 (* type context_usage *)

(** ** [HailoService.chat_completion] *)

Definition mock_response : string :=
  "This is a mock response. Hailo platform is not available or model not loaded.".

(** [str.split()] without arguments: the maximal runs of characters that
    are not blank (space, tab, line feed, vertical tab, form feed, carriage
    return). *)
Definition split (s : string) : list string := String.words s.

(** The [for token in gen] loop: the counter, the accumulated text and the
    chunks yielded so far. *)
Fixpoint for_token_in (stream : bool) (gen : list string)
    (token_count : nat) (full_response : string) (yielded : list event)
    : nat * string * list event :=
  match gen with
  | [] => (token_count, full_response, yielded)
  | token :: gen' =>
    for_token_in stream gen' (token_count + 1) (full_response +:+ token)
      (if stream then yielded ++ [Token token] else yielded)
  end.

(** The chunks the generator yields when it is run to its end, in order. *)
Definition chat_completion (messages : list Message) (model : string)
    (temperature : Q) (max_tokens : Z) (seed : option Z) (stream : bool)
    : M (list event) :=
  s ← get_self;
  (* Mock mode for testing without hardware *)
  if negb (HAILO_AVAILABLE P) || bool_decide (llm s = None) then
    if stream then
      ret ((fun word => Token (word +:+ " ")) <$> split mock_response)
    else
      ret [Complete mock_response None]
  else
  (* Load model if needed *)
  loaded ← load_model model;
  if negb loaded then ret [Error ("Failed to load model: " +:+ model)]
  else
  s ← get_self;
  match llm s with
  | None =>
    (* self.llm.generate on None raises inside the try block *)
    ret [Error "'NoneType' object has no attribute 'generate'"]
  | Some h =>
    let kw := mkKwargs messages temperature max_tokens seed in
    cs ← get_calls;
    let g := llm_generate P cs h kw in
    log (CGenerate h kw g);;
    let '(token_count, full_response, yielded) :=
      for_token_in stream g.1 0 "" [] in
    match g.2 with
    | Some e => ret (yielded ++ [Error e])
    | None =>
      (* Send final message with stats *)
      cs ← get_calls;
      let ns := elapsed_ns P cs in
      ret (yielded ++
           [Complete (if negb stream then full_response else "")
                     (Some (mkStats token_count ns ns))])
    end
  end.

(** ** [HailoService.text_completion] *)


(** ** [HailoService.get_model_info] *)

(** [model_name] is whatever the request holds under [model]: the
    annotation [str] is not enforced.  The lookup raises for a list or a
    dict; an entry is found for a string only, which is then the name
    reported. *)
Definition get_model_info (model_name : jvalue) : M (option model_info) :=
  model_config ← models_config_get model_name;
  match model_config with
  | None => ret None
  | Some mc =>
    if negb (truthy_dict mc) then ret None
    else
      ret (Some (mkInfo (jvalue_str model_name)
                        (default "unknown" (mc !! "family"))
                        (default "unknown" (mc !! "parameter_size"))
                        (default "hef" (mc !! "format"))
                        (mc !! "hef_path")))
  end.

(** ** [load_model], [chat_completion] and [text_completion] on the value a
       request holds *)

(** The handlers pass the value under [model] on as it is.  For a string
    these are the methods above.  For any other value: [current_model], a
    string or [None], equals it only when both are [None]; the lookup in the
    configuration raises for a list or a dict and finds nothing otherwise. *)
Definition load_model_value (model_name : jvalue) : M bool :=
  match model_name with
  | JString name => load_model name
  | _ =>
    s ← get_self;
    if negb (HAILO_AVAILABLE P) || bool_decide (vdevice s = None) then ret false
    else
    (* If model is already loaded, skip *)
    if bool_decide (current_model s = None) && bool_decide (model_name = JNull)
       && negb (bool_decide (llm s = None)) then ret true
    else
    (* Get model config: not found *)
    models_config_get model_name;;
    ret false
  end.

(** The part of [chat_completion] that follows a load that returned
    [True]. *)
Definition generate_chunks (messages : list Message) (temperature : Q)
    (max_tokens : Z) (seed : option Z) (stream : bool) : M (list event) :=
  s ← get_self;
  match llm s with
  | None =>
    ret [Error "'NoneType' object has no attribute 'generate'"]
  | Some h =>
    let kw := mkKwargs messages temperature max_tokens seed in
    cs ← get_calls;
    let g := llm_generate P cs h kw in
    log (CGenerate h kw g);;
    let '(token_count, full_response, yielded) :=
      for_token_in stream g.1 0 "" [] in
    match g.2 with
    | Some e => ret (yielded ++ [Error e])
    | None =>
      cs ← get_calls;
      let ns := elapsed_ns P cs in
      ret (yielded ++
           [Complete (if negb stream then full_response else "")
                     (Some (mkStats token_count ns ns))])
    end
  end.

Definition chat_completion_value (messages : list Message) (model : jvalue)
    (temperature : Q) (max_tokens : Z) (seed : option Z) (stream : bool)
    : M (list event) :=
  match model with
  | JString name =>
    chat_completion messages name temperature max_tokens seed stream
  | _ =>
    s ← get_self;
    (* Mock mode for testing without hardware *)
    if negb (HAILO_AVAILABLE P) || bool_decide (llm s = None) then
      if stream then
        ret ((fun word => Token (word +:+ " ")) <$> split mock_response)
      else
        ret [Complete mock_response None]
    else
    (* Load model if needed *)
    loaded ← load_model_value model;
    if negb loaded then
      ret [Error ("Failed to load model: " +:+ jvalue_str model)]
    else generate_chunks messages temperature max_tokens seed stream
  end.

Definition text_completion_value (prompt : string) (model : jvalue)
    (temperature : Q) (max_tokens : Z) (seed : option Z) (stream : bool)
    : M (list event) :=
  let messages := [mkMessage "user" prompt] in
  chat_completion_value messages model temperature max_tokens seed stream.

(** ** [HailoService.list_models] *)

(** The entries are listed in the order of [map_to_list]; the dictionary of
    the source keeps the order of the configuration file. *)
Definition list_entry (item : string * model_config) : M model_entry :=
  let '(model_name, mc) := item in
  let hef_path := default "" (mc !! "hef_path") in
  ex ← Path_exists hef_path;
  size ← (if negb ex then ret 0%Z else Path_stat_size hef_path);
  ret (mkEntry model_name size
               (default "unknown" (mc !! "family"))
               (default "unknown" (mc !! "parameter_size"))
               (default "hef" (mc !! "format"))).

Definition list_models : M (list model_entry) :=
  s ← get_self;
  mapM list_entry (map_to_list (models_config s)).

(** ** [WebSocketServer]: the request handlers *)

(** A decoded request: the fields of the JSON object the handlers read,
    [None] when the key is absent.  [model] is looked up in a dictionary by
    the methods, so it is kept as the JSON value it is. *)
Record Request := mkRequest {
  action : option string;
  messages : option (list Message);
  prompt : option string;
  model : option jvalue;
  temperature : option Q;
  max_tokens : option Z;
  seed : option Z;
  stream : option bool
}.

(** A connection, seen from the server: the messages sent on it so far,
    oldest first.  The peer keeps the connection open, so [send] returns. *)
Definition WebSocket := list event.
Definition send (websocket : WebSocket) (e : event) : WebSocket := websocket ++ [e].

(** [async for chunk in chunks: await websocket.send(json.dumps(chunk))] *)
Definition send_each (websocket : WebSocket) (chunks : list event) : WebSocket :=
  foldl send websocket chunks.

(** [f'{x}'] for an optional string *)
Definition py_str (x : option string) : string := default "None" x.

(** [request.get('model', self.config.get('hailo', {}).get('default_model', 'llama3.2'))] *)
Definition requested_model (s : HailoService) (request : Request) : jvalue :=
  default (JString (default "llama3.2" (default_model s))) (model request).

Definition handle_chat (websocket : WebSocket) (request : Request) : M WebSocket :=
  s ← get_self;
  chunks ← chat_completion_value (default [] (messages request))
                           (requested_model s request)
                           (default (8 # 10)%Q (temperature request))
                           (default 2048%Z (max_tokens request))
                           (seed request)
                           (default true (stream request));
  ret (send_each websocket chunks).

Definition handle_generate (websocket : WebSocket) (request : Request) : M WebSocket :=
  s ← get_self;
  chunks ← text_completion_value (default "" (prompt request))
                           (requested_model s request)
                           (default (8 # 10)%Q (temperature request))
                           (default 2048%Z (max_tokens request))
                           (seed request)
                           (default true (stream request));
  ret (send_each websocket chunks).

Definition handle_list_models (websocket : WebSocket) : M WebSocket :=
  models ← list_models;
  ret (send websocket (Models models)).

(** [request.get('model')] is [None] when the key is absent. *)
Definition handle_model_info (websocket : WebSocket) (request : Request) : M WebSocket :=
  let model_name := default JNull (model request) in
  info ← get_model_info model_name;
  match info with
  | Some info => ret (send websocket (ModelInfo info))
  | None =>
    ret (send websocket (Error ("Model not found: " +:+ jvalue_str model_name)))
  end.

Definition handle_context_usage (websocket : WebSocket) : M WebSocket :=
  usage ← get_context_usage;
  ret (send websocket (ContextUsage usage)).

(** What [json.loads] makes of an incoming message. *)
Inductive inbound := Malformed | Parsed (request : Request).

(** The body of the [async for message in websocket] loop of
    [handle_request], for one message. *)
Definition handle_message (websocket : WebSocket) (message : inbound) : M WebSocket :=
  match message with
  | Malformed => ret (send websocket (Error "Invalid JSON request"))
  | Parsed request =>
    let action := action request in
    try_except
      (if bool_decide (action = Some "chat") then
         handle_chat websocket request
       else if bool_decide (action = Some "generate") then
         handle_generate websocket request
       else if bool_decide (action = Some "list_models") then
         handle_list_models websocket
       else if bool_decide (action = Some "model_info") then
         handle_model_info websocket request
       else if bool_decide (action = Some "context_usage") then
         handle_context_usage websocket
       else
         ret (send websocket (Error ("Unknown action: " +:+ py_str action))))
      (fun e => ret (send websocket (Error e)))
  end.

(** [handle_request]: the messages received on one connection, in order. *)
Fixpoint handle_request (websocket : WebSocket) (received : list inbound) : M WebSocket :=
  match received with
  | [] => ret websocket
  | message :: received' =>
    websocket ← handle_message websocket message;
    handle_request websocket received'
  end.

End Service.

(** * Observations on machines, logs and event sequences *)

(** ** Handles that exist *)

(** The effect of one collaborator call on the model handles that exist: a
    constructor that returns adds its object, a release that returns removes
    it.  A release that raises is taken to leave the handle in existence. *)
Definition track (live : list LLM) (c : call) : list LLM :=
  match c with
  | CLLMInit h Returns => live ++ [h]
  | CLLMRelease h Returns => filter (λ h', h' ≠ h) live
  | _ => live
  end.

Definition live_handles (cs : list call) : list LLM := foldl track [] cs.

Definition is_device_init (c : call) : bool :=
  match c with CVDeviceInit _ => true | _ => false end.
Definition is_llm_init (c : call) : bool :=
  match c with CLLMInit _ _ => true | _ => false end.
Definition is_generate (c : call) : bool :=
  match c with CGenerate _ _ _ => true | _ => false end.

(** How many calls of a kind a log holds. *)
Definition count (f : call → bool) (cs : list call) : nat :=
  length (List.filter f cs).

(** ** The state invariant of the service *)

Record Inv (m : Machine) : Prop := mkInv {
  (* the handle is held under the name it was loaded for *)
  inv_name : ∀ h, llm (self m) = Some h →
                  current_model (self m) = Some (llm_name h);
  (* at most one model handle exists *)
  inv_one : (length (live_handles (calls m)) ≤ 1)%nat;
  (* and it is the one the service holds *)
  inv_live : live_handles (calls m) = option_list (llm (self m));
  (* a model handle needs the device handle *)
  inv_device : is_Some (llm (self m)) → is_Some (vdevice (self m));
  (* VDevice() is called at most once *)
  inv_once : (count is_device_init (calls m) ≤ 1)%nat
}.

(** ** Event sequences *)

Definition is_token (e : event) : bool :=
  match e with Token _ => true | _ => false end.
Definition is_complete (e : event) : bool :=
  match e with Complete _ _ => true | _ => false end.
Definition is_terminal (e : event) : bool :=
  match e with Complete _ _ | Error _ => true | _ => false end.

(** Zero or more tokens followed by exactly one terminal event. *)
Definition framed (es : list event) : Prop :=
  ∃ tokens t, es = (Token <$> tokens) ++ [t] ∧ is_terminal t = true.

(** The text of the token events of a sequence, concatenated. *)
Definition streamed_text (es : list event) : string :=
  foldr (λ e acc, match e with Token c => c +:+ acc | _ => acc end) "" es.

(** The content of the complete events of a sequence. *)
Definition complete_contents (es : list event) : list string :=
  omap (λ e, match e with Complete c _ => Some c | _ => None end) es.

(** The chunks of a run that returned, [[]] for one that raised. *)
Definition chunks_of {A} (r : result (list A)) : list A :=
  match r with Ok es => es | Raise _ => [] end.

(** What the mock generator yields for a streaming request. *)
Definition mock_tokens : list event :=
  (λ word, Token (word +:+ " ")) <$> split mock_response.

(** The calls [load_model] makes around a load that raises: the check of the
    artifact, the release of the handle held before, the constructor. *)
Definition released (old : option LLM) : list call :=
  match old with Some h => [CLLMRelease h Returns] | None => [] end.

(** The call [release] makes for the device handle. *)
Definition device_released (P : Platform) (cs : list call) (v : option VDevice)
    : list call :=
  match v with
  | Some d => [CVDeviceRelease d (vdevice_release P cs d)]
  | None => []
  end.

(** ** The runs of [load_model] *)

(** The artifact [load_model] resolves a name to: the non-empty [hef_path]
    of a non-empty configuration entry. *)
Definition resolve (s : HailoService) (model_name : string) : option string :=
  mc ← models_config s !! model_name;
  if truthy_dict mc then
    hef_path ← mc !! "hef_path";
    if truthy_str hef_path then Some hef_path else None
  else None.

(** The platform was imported and the device handle is held. *)
Definition usable (P : Platform) (m : Machine) : Prop :=
  HAILO_AVAILABLE P = true ∧ is_Some (vdevice (self m)).

(** The model is the active one and its handle is held. *)
Definition cached (m : Machine) (model_name : string) : Prop :=
  current_model (self m) = Some model_name ∧ is_Some (llm (self m)).

#[global] Instance cached_decision m model_name : Decision (cached m model_name).
Proof. unfold cached. apply _. Defined.

(** The seven ways through [load_model], with the value returned and the
    machine left behind. *)
Inductive load_model_run (P : Platform) (model_name : string) (m : Machine)
    : bool → Machine → Prop :=
  | lm_unavailable :
      ¬ usable P m →
      load_model_run P model_name m false m
  | lm_cached :
      usable P m → cached m model_name →
      load_model_run P model_name m true m
  | lm_unresolved :
      usable P m → ¬ cached m model_name →
      resolve (self m) model_name = None →
      load_model_run P model_name m false m
  | lm_missing hef :
      usable P m → ¬ cached m model_name →
      resolve (self m) model_name = Some hef →
      path_exists P (calls m) hef = false →
      load_model_run P model_name m false
        (mkMachine (self m) (calls m ++ [CPathExists hef false]))
  | lm_release_raised hef old e :
      usable P m → ¬ cached m model_name →
      resolve (self m) model_name = Some hef →
      path_exists P (calls m) hef = true →
      llm (self m) = Some old →
      llm_release P (calls m ++ [CPathExists hef true]) old = Raises e →
      load_model_run P model_name m false
        (mkMachine (self m)
           (calls m ++ [CPathExists hef true; CLLMRelease old (Raises e)]))
  | lm_load_raised hef e :
      usable P m → ¬ cached m model_name →
      resolve (self m) model_name = Some hef →
      path_exists P (calls m) hef = true →
      (∀ old, llm (self m) = Some old →
              llm_release P (calls m ++ [CPathExists hef true]) old = Returns) →
      let cs := calls m ++ [CPathExists hef true] ++ released (llm (self m)) in
      llm_init P cs hef = Raises e →
      load_model_run P model_name m false
        (mkMachine (set_llm None (self m))
           (cs ++ [CLLMInit (mkLLM (length cs) hef model_name) (Raises e)]))
  | lm_loaded hef :
      usable P m → ¬ cached m model_name →
      resolve (self m) model_name = Some hef →
      path_exists P (calls m) hef = true →
      (∀ old, llm (self m) = Some old →
              llm_release P (calls m ++ [CPathExists hef true]) old = Returns) →
      let cs := calls m ++ [CPathExists hef true] ++ released (llm (self m)) in
      let h := mkLLM (length cs) hef model_name in
      llm_init P cs hef = Returns →
      load_model_run P model_name m true
        (mkMachine (set_current_model (Some model_name) (set_llm (Some h) (self m)))
           (cs ++ [CLLMInit h Returns])).

(** ** The chunks of a generation on the accelerator *)

(** The terminal chunk of a generation [g] that was run after the log [cs]:
    the fault, or the final message with the statistics. *)
Definition terminal_chunk (P : Platform) (cs : list call) (stream : bool)
    (g : generation) : event :=
  match g.2 with
  | Some e => Error e
  | None =>
    Complete (if stream then "" else foldr String.app "" g.1)
             (Some (mkStats (length g.1) (elapsed_ns P cs) (elapsed_ns P cs)))
  end.

Definition generation_chunks (P : Platform) (cs : list call) (stream : bool)
    (g : generation) : list event :=
  (if stream then Token <$> g.1 else []) ++ [terminal_chunk P cs stream g].

(** ** Sequences of calls on the service *)

(** The methods of [HailoService] that the invariant is about, as calls. *)
Inductive operation :=
  | OpLoadModel (model_name : string)
  | OpChatCompletion (messages : list Message) (model : string)
      (temperature : Q) (max_tokens : Z) (seed : option Z) (stream : bool)
  | OpGetContextUsage
  | OpRelease.

(** The machine a call leaves, whether it returned or raised. *)
Definition perform (P : Platform) (m : Machine) (o : operation) : Machine :=
  match o with
  | OpLoadModel model_name => (load_model P model_name m).2
  | OpChatCompletion messages model temperature max_tokens seed stream =>
    (chat_completion P messages model temperature max_tokens seed stream m).2
  | OpGetContextUsage => (get_context_usage P m).2
  | OpRelease => (release P m).2
  end.

(** ** Keys that can be looked up *)

(** The values [dict.get] accepts as a key: all but a list and a dict. *)
Definition hashable (v : jvalue) : bool :=
  match v with JArray _ | JObject _ => false | _ => true end.

(** ** Machines that never reached the accelerator *)

(** A machine on which no model was ever loaded and nothing was generated. *)
Definition idle (m : Machine) : Prop :=
  llm (self m) = None
  ∧ count is_llm_init (calls m) = 0%nat
  ∧ count is_generate (calls m) = 0%nat.

(** A handler that returns and leaves an idle machine idle. *)
Definition keeps_idle (c : M (list event)) (m : Machine) : Prop :=
  ∃ websocket' m', c m = (Ok websocket', m') ∧ idle m'.

(** * Concrete platforms and configurations, for evaluation *)

Module Demo.

Definition models : gmap string model_config :=
  {[ "llama3.2" := {[ "hef_path" := "/models/llama3.2.hef"; "family" := "llama" ]};
     "qwen2" := {[ "hef_path" := "/models/qwen2.hef" ]};
     "ghost" := {[ "hef_path" := "/missing" ]} ]}.

(** A board on which everything works; the artifact [/missing] is absent. *)
Definition board : Platform :=
  mkPlatform true Returns
    (fun _ p => negb (bool_decide (p = "/missing")))
    (fun _ _ => 4096%Z)
    (fun _ _ => Returns)
    (fun _ _ => Returns)
    (fun _ _ _ => (["Hello"; ","; " world"], None))
    (fun _ _ => Some 7%Z)
    (fun _ _ => Returns)
    (fun _ => 1000%Z).

(** No [hailo_platform] module: the import failed. *)
Definition no_hailo : Platform :=
  mkPlatform false (Raises "unreachable")
    (fun _ _ => false) (fun _ _ => 0%Z)
    (fun _ _ => Raises "unreachable") (fun _ _ => Raises "unreachable")
    (fun _ _ _ => ([], Some "unreachable")) (fun _ _ => None)
    (fun _ _ => Raises "unreachable") (fun _ => 0%Z).



(** The service as [WebSocketServer.__init__] builds it. *)
Definition fresh (P : Platform) : Machine := init P models (Some "llama3.2").

(** The service after a direct [load_model("llama3.2")]. *)
Definition with_llama (P : Platform) : Machine := (load_model P "llama3.2" (fresh P)).2.

Definition question : list Message := [mkMessage "user" "Why is the sky blue"].

(** [{"action": "model_info"}] and [{"action": "model_info", "model": "mistral"}] *)
Definition info_request (name : option jvalue) : Request :=
  mkRequest (Some "model_info") None None name None None None None.

End Demo.

(** * Further observations *)

(** ** [WebSocketServer.cleanup] *)

Definition cleanup (P : Platform) : M unit := release P.

(** ** Logs in which two model handles never exist together *)

(** At every moment of the log, at most one model handle exists. *)
Definition never_two (cs : list call) : Prop :=
  ∀ pre, pre `prefix_of` cs → (length (live_handles pre) ≤ 1)%nat.

(** The calls that bring a model handle into existence. *)
Definition is_handle_birth (c : call) : bool :=
  match c with CLLMInit _ Returns => true | _ => false end.

(** The calls to the file system. *)
Definition is_path_call (c : call) : bool :=
  match c with CPathExists _ _ | CPathStat _ _ => true | _ => false end.

Definition is_path_stat (c : call) : bool :=
  match c with CPathStat _ _ => true | _ => false end.
Definition is_llm_release (c : call) : bool :=
  match c with CLLMRelease _ _ => true | _ => false end.
Definition is_device_release (c : call) : bool :=
  match c with CVDeviceRelease _ _ => true | _ => false end.

(** What [list_models] reports for one entry of the configuration, the
    size apart. *)
Definition describes (e : model_entry) (item : string * gmap string string)
    : Prop :=
  me_name e = item.1
  ∧ me_family e = default "unknown" (item.2 !! "family")
  ∧ me_parameter_size e = default "unknown" (item.2 !! "parameter_size")
  ∧ me_format e = default "hef" (item.2 !! "format").

(** A machine that differs from [m0] by calls to the file system only. *)
Definition only_paths_since (m0 m : Machine) : Prop :=
  self m = self m0
  ∧ ∃ cs, calls m = calls m0 ++ cs ∧ Forall (λ c, is_path_call c = true) cs.

(** The actions [handle_request] dispatches on. *)
Definition known_actions : list string :=
  ["chat"; "generate"; "list_models"; "model_info"; "context_usage"].

(** A handler that returns after sending at least one message on the
    connection, after what was sent before. *)
Definition replies (c : M (list event)) (websocket : list event) (m : Machine)
    : Prop :=
  ∃ sent m', c m = (Ok (websocket ++ sent), m') ∧ sent ≠ [].

(** The number of token chunks of a sequence. *)
Definition token_chunks (es : list event) : nat := length (List.filter is_token es).

(** ** More platforms, for evaluation *)

Module Bench.

(** A board whose context usage query raises. *)
Definition mute : Platform :=
  mkPlatform true Returns
    (fun _ _ => true) (fun _ _ => 4096%Z)
    (fun _ _ => Returns) (fun _ _ => Returns)
    (fun _ _ _ => (["Hello"], None))
    (fun _ _ => None)
    (fun _ _ => Returns)
    (fun _ => 1000%Z).

(** [{"action": "pull"}] *)
Definition pull_request : Request :=
  mkRequest (Some "pull") None None None None None None None.

End Bench.

(** * Basic facts *)

Lemma live_app cs cs' :
  live_handles (cs ++ cs') = foldl track (live_handles cs) cs'.
Proof. unfold live_handles. by rewrite foldl_app. Qed.

Lemma live_snoc cs c : live_handles (cs ++ [c]) = track (live_handles cs) c.
Proof. by rewrite live_app. Qed.

Lemma count_app f cs1 cs2 : count f (cs1 ++ cs2) = (count f cs1 + count f cs2)%nat.
Proof. unfold count. by rewrite List.filter_app, length_app. Qed.

Lemma count_snoc f cs c :
  count f (cs ++ [c]) = (count f cs + (if f c then 1 else 0))%nat.
Proof.
  rewrite count_app. f_equal. unfold count. simpl. by destruct (f c).
Qed.

Lemma filter_ne_self (h : LLM) : filter (λ h', h' ≠ h) [h] = [].
Proof. rewrite filter_cons, filter_nil. by destruct (decide (h ≠ h)). Qed.

Lemma usable_test P m :
  negb (HAILO_AVAILABLE P) || bool_decide (vdevice (self m) = None) = false
  ↔ usable P m.
Proof.
  unfold usable.
  destruct (HAILO_AVAILABLE P), (vdevice (self m)); simpl; split;
    try done; try (by intros [? [? ?]]); try (by intros [? ?]); eauto.
Qed.

Lemma cached_test m name :
  bool_decide (current_model (self m) = Some name)
  && negb (bool_decide (llm (self m) = None)) = true
  ↔ cached m name.
Proof.
  unfold cached.
  destruct (llm (self m)); simpl; rewrite ?andb_true_r, ?andb_false_r.
  - rewrite bool_decide_eq_true. split; [eauto | by intros []].
  - split; [done | by intros [? [? ?]]].
Qed.

(** At most one handle exists as soon as the handle that exists is the one
    held. *)
Lemma Inv_intro m :
  (∀ h, llm (self m) = Some h → current_model (self m) = Some (llm_name h)) →
  live_handles (calls m) = option_list (llm (self m)) →
  (is_Some (llm (self m)) → is_Some (vdevice (self m))) →
  (count is_device_init (calls m) ≤ 1)%nat →
  Inv m.
Proof.
  intros Hn Hl Hd Ho. constructor; try done.
  rewrite Hl. destruct (llm (self m)); simpl; lia.
Qed.

(** Running a bind. *)
Lemma bind_run {A B} (c : M A) (k : A → M B) m :
  (x ← c; k x) m
  = match c m with
    | (Ok a, m') => k a m'
    | (Raise e, m') => (Raise e, m')
    end.
Proof. reflexivity. Qed.

(** Unfolding of the monad and of the collaborator calls. *)
Ltac run :=
  unfold Path_exists, Path_stat_size, LLM_new, LLM_release, VDevice_release,
    try_except, of_outcome, log, get_calls, get_self, modify_self,
    mbind, M_bind, bind, mret, M_ret, ret, raise in *;
  simpl in *.

Ltac unfold_lets := repeat match goal with x := _ |- _ => subst x end.

Ltac reassoc :=
  simpl; rewrite <-?(assoc_L (++)); simpl; rewrite <-?(assoc_L (++)); simpl.

(** ** [load_model] follows one of its seven runs *)

Lemma load_model_run_eq P n m b m1 m2 :
  load_model_run P n m b m1 → m1 = m2 → load_model_run P n m b m2.
Proof. by intros ? <-. Qed.

Lemma resolve_some s name mc hef :
  models_config s !! name = Some mc → truthy_dict mc = true →
  mc !! "hef_path" = Some hef → truthy_str hef = true →
  resolve s name = Some hef.
Proof.
  intros Hmc Htd Hhef Hts. unfold resolve. rewrite Hmc. simpl.
  rewrite Htd, Hhef. simpl. by rewrite Hts.
Qed.

Lemma load_model_sound P model_name m :
  ∃ b m', load_model P model_name m = (Ok b, m')
          ∧ load_model_run P model_name m b m'.
Proof.
  unfold load_model.
  unfold mbind at 1, M_bind at 1, bind at 1, get_self at 1. simpl.
  destruct (negb _ || _) eqn:Hu.
  { eexists _, _; split; [done|]. apply lm_unavailable.
    rewrite <-usable_test. congruence. }
  apply usable_test in Hu.
  destruct (bool_decide _ && _) eqn:Hc.
  { eexists _, _; split; [done|]. apply lm_cached; [done|]. by apply cached_test. }
  assert (¬ cached m model_name) as Hnc by (rewrite <-cached_test; congruence).
  destruct (models_config (self m) !! model_name) as [mc|] eqn:Hmc; last first.
  { eexists _, _; split; [done|]. apply lm_unresolved; [done..|].
    unfold resolve. by rewrite Hmc. }
  destruct (truthy_dict mc) eqn:Htd; simpl; last first.
  { eexists _, _; split; [done|]. apply lm_unresolved; [done..|].
    unfold resolve. rewrite Hmc. simpl. by rewrite Htd. }
  destruct (mc !! "hef_path") as [hef|] eqn:Hhef; last first.
  { eexists _, _; split; [done|]. apply lm_unresolved; [done..|].
    unfold resolve. rewrite Hmc. simpl. by rewrite Htd, Hhef. }
  destruct (truthy_str hef) eqn:Hts; simpl; last first.
  { eexists _, _; split; [done|]. apply lm_unresolved; [done..|].
    unfold resolve. rewrite Hmc. simpl. rewrite Htd, Hhef. simpl. by rewrite Hts. }
  pose proof (resolve_some _ _ _ _ Hmc Htd Hhef Hts) as Hr.
  run. destruct (path_exists P (calls m) hef) eqn:Hpe; simpl; last first.
  { eexists _, _; split; [done|]. by apply lm_missing. }
  destruct (llm (self m)) as [old|] eqn:Hl; simpl.
  - destruct (llm_release P _ old) as [|e] eqn:Hrel; simpl.
    + destruct (llm_init P _ hef) as [|e] eqn:Hini; simpl.
      * eexists _, _; split; [done|].
        eapply load_model_run_eq;
          [apply (lm_loaded P model_name m hef)|]; try done.
        -- rewrite Hl. by intros ? [= <-].
        -- rewrite Hl. revert Hini. by reassoc.
        -- rewrite Hl. by reassoc.
      * eexists _, _; split; [done|].
        eapply load_model_run_eq;
          [apply (lm_load_raised P model_name m hef e)|]; try done.
        -- rewrite Hl. by intros ? [= <-].
        -- rewrite Hl. revert Hini. by reassoc.
        -- rewrite Hl. by reassoc.
    + eexists _, _; split; [done|].
      eapply load_model_run_eq; [by eapply lm_release_raised|]. by reassoc.
  - destruct (llm_init P _ hef) as [|e] eqn:Hini; simpl.
    + eexists _, _; split; [done|].
      eapply load_model_run_eq;
        [apply (lm_loaded P model_name m hef)|]; try done.
      * rewrite Hl. by intros ??.
      * rewrite Hl. revert Hini. by reassoc.
      * rewrite Hl. by reassoc.
    + eexists _, _; split; [done|].
      eapply load_model_run_eq;
        [apply (lm_load_raised P model_name m hef e)|]; try done.
      * rewrite Hl. by intros ??.
      * rewrite Hl. revert Hini. by reassoc.
      * destruct m as [[] ?]; simpl in *; subst. by reassoc.
Qed.

(** [load_model] returns; it never raises. *)
Lemma load_model_returns P model_name m :
  ∃ b, (load_model P model_name m).1 = Ok b.
Proof.
  destruct (load_model_sound P model_name m) as (b & m' & -> & _). eauto.
Qed.

(** ** Facts about the runs *)

Section Runs.
Context {P : Platform} {model_name : string} {m m' : Machine} {b : bool}.
Hypothesis Hrun : load_model_run P model_name m b m'.

(** A run that returns [True] leaves the model active under its name. *)
Lemma run_true_cached : b = true → cached m' model_name.
Proof using Hrun.
  destruct Hrun; try done; intros _; split; simpl; eauto.
Qed.

(** The device handle, the active name and the configuration are never
    written by a failing run; no run writes the device handle. *)
Lemma run_vdevice : vdevice (self m') = vdevice (self m).
Proof using Hrun. by destruct Hrun. Qed.

Lemma run_models_config : models_config (self m') = models_config (self m).
Proof using Hrun. by destruct Hrun. Qed.

Lemma run_false_current_model :
  b = false → current_model (self m') = current_model (self m).
Proof using Hrun. by destruct Hrun. Qed.

(** The log only grows, by no device initialisation and at most one
    constructor call. *)
Lemma run_calls : ∃ cs, calls m' = calls m ++ cs
                        ∧ count is_device_init cs = 0%nat
                        ∧ (count is_llm_init cs ≤ 1)%nat
                        ∧ count is_generate cs = 0%nat.
Proof using Hrun.
  destruct Hrun; simpl.
  1-3: exists []; rewrite (right_id_L [] (++)); unfold count; simpl;
    repeat split; lia.
  1-2: eexists; split; [done|]; unfold count; simpl; repeat split; lia.
  all: unfold_lets; rewrite <-(assoc_L (++)); eexists; split; [done|];
    rewrite !count_app; destruct (llm (self m)); simpl; unfold count; simpl;
    repeat split; lia.
Qed.

(** The invariant is kept. *)
Lemma run_Inv : Inv m → Inv m'.
Proof using Hrun.
  intros [Hn _ Hl Hd Ho].
  destruct Hrun as [| | | | |? ? Hu|? Hu]; try done; unfold_lets;
    apply Inv_intro; simpl; try done.
  all: try (by intros [? [=]]); try (by intros ? [= <-]);
    try (by intros _; destruct Hu).
  all: destruct (llm (self m)) as [?|] eqn:Hold; simplify_eq/=;
    rewrite ?(right_id_L [] (++)), <-?(assoc_L (++)),
            ?live_app, ?count_app, ?Hl;
    unfold count in *; simpl; rewrite ?filter_ne_self; try done; lia.
Qed.

End Runs.

(** ** Strings and the token loop *)

Lemma string_app_cons a (s t : string) : String a s +:+ t = String a (s +:+ t).
Proof. reflexivity. Qed.

Lemma string_app_nil_r (s : string) : s +:+ "" = s.
Proof. induction s as [|a s IH]; [done|]. by rewrite string_app_cons, IH. Qed.

Lemma string_app_assoc (s t u : string) : (s +:+ t) +:+ u = s +:+ (t +:+ u).
Proof.
  induction s as [|a s IH]; [done|]. by rewrite !string_app_cons, IH.
Qed.

(** The loop counts the tokens, accumulates their text and, when streaming,
    yields one chunk per token. *)
Lemma for_token_in_spec stream gen token_count full_response yielded :
  for_token_in stream gen token_count full_response yielded =
  ((token_count + length gen)%nat,
   full_response +:+ foldr String.app "" gen,
   yielded ++ (if stream then Token <$> gen else [])).
Proof.
  revert token_count full_response yielded.
  induction gen as [|token gen IH]; intros n full out; simpl.
  - rewrite string_app_nil_r, Nat.add_0_r.
    by destruct stream; rewrite (right_id_L [] (++)).
  - rewrite IH, string_app_assoc. f_equal; [f_equal; lia|].
    destruct stream; [|done]. by rewrite <-(assoc_L (++)).
Qed.

(** ** [chat_completion], case by case *)

#[local] Opaque split.

Section Chat.
Context (P : Platform) (messages : list Message) (model : string)
        (temperature : Q) (max_tokens : Z) (seed : option Z).

(** Without the platform, or with no model handle, the generator is the
    mock one and the machine is left as it was. *)
Lemma chat_completion_mock stream m :
  HAILO_AVAILABLE P = false ∨ llm (self m) = None →
  chat_completion P messages model temperature max_tokens seed stream m =
  (Ok (if stream then mock_tokens else [Complete mock_response None]), m).
Proof.
  intros Hmock. unfold chat_completion. run.
  assert (negb (HAILO_AVAILABLE P) || bool_decide (llm (self m) = None) = true)
    as ->; [|by destruct stream].
  destruct Hmock as [-> | ->]; [done|]. by rewrite orb_true_r.
Qed.

(** With the platform and a model handle, the generator calls [load_model]
    and then leaves one error chunk, or the chunks of the generation. *)
Lemma chat_completion_real stream m :
  HAILO_AVAILABLE P = true → is_Some (llm (self m)) →
  ∃ b m1, load_model P model m = (Ok b, m1) ∧ load_model_run P model m b m1 ∧
    if b then
      ∃ h, llm (self m1) = Some h ∧
        let kw := mkKwargs messages temperature max_tokens seed in
        let g := llm_generate P (calls m1) h kw in
        let cs := calls m1 ++ [CGenerate h kw g] in
        chat_completion P messages model temperature max_tokens seed stream m =
        (Ok (generation_chunks P cs stream g), mkMachine (self m1) cs)
    else
      chat_completion P messages model temperature max_tokens seed stream m =
      (Ok [Error ("Failed to load model: " +:+ model)], m1).
Proof.
  intros Hav [h0 Hh0].
  destruct (load_model_sound P model m) as (b & m1 & Hload & Hrun).
  exists b, m1. split; [done|]. split; [done|].
  unfold chat_completion. run. rewrite Hav, Hh0. simpl. rewrite Hload.
  destruct b; simpl; [|done].
  destruct (run_true_cached Hrun eq_refl) as [_ [h Hh]].
  exists h. split; [done|]. rewrite Hh. simpl.
  rewrite for_token_in_spec. simpl.
  unfold generation_chunks, terminal_chunk.
  destruct (llm_generate P (calls m1) h _) as [tokens [e|]]; simpl; [done|].
  by destruct stream.
Qed.

End Chat.

(** ** [release], [get_context_usage], [get_model_info]: what they leave *)

Lemma release_Inv P m : Inv m → Inv (release P m).2.
Proof.
  intros [Hn _ Hl Hd Ho]. destruct m as [[v l c mc d] cs].
  unfold release. run.
  destruct l as [h|], v as [dv|]; simpl;
    repeat (case_match; simplify_eq/=); apply Inv_intro; simpl;
    rewrite <-?(assoc_L (++)), ?live_app, ?count_app, ?Hl;
    unfold count in *; simpl; rewrite ?filter_ne_self;
    try done; try lia; try (by intros [? [=]]).
Qed.

Lemma get_context_usage_Inv P m : Inv m → Inv (get_context_usage P m).2.
Proof.
  intros [Hn _ Hl Hd Ho]. destruct m as [[v l c mc d] cs].
  unfold get_context_usage. run.
  repeat (case_match; simplify_eq/=); apply Inv_intro; simpl;
    rewrite ?live_app, ?count_app, ?Hl; unfold count in *; simpl;
    try done; lia.
Qed.

Lemma chat_completion_Inv P messages model temperature max_tokens seed stream m :
  Inv m →
  Inv (chat_completion P messages model temperature max_tokens seed stream m).2.
Proof.
  intros HI.
  destruct (HAILO_AVAILABLE P) eqn:Hav; last first.
  { by rewrite chat_completion_mock by eauto. }
  destruct (llm (self m)) as [h0|] eqn:Hh0; last first.
  { by rewrite chat_completion_mock by eauto. }
  destruct (chat_completion_real P messages model temperature max_tokens seed
              stream m Hav) as (b & m1 & _ & Hrun & Hchat); [by eexists|].
  pose proof (run_Inv Hrun HI) as HI1.
  destruct b; [|by rewrite Hchat].
  destruct HI1 as [Hn _ Hl Hd Ho].
  destruct Hchat as (h & Hh & ->). apply Inv_intro; simpl; try done.
  - by rewrite live_snoc.
  - rewrite count_snoc. simpl. lia.
Qed.

Lemma load_model_Inv P model_name m : Inv m → Inv (load_model P model_name m).2.
Proof.
  intros HI.
  destruct (load_model_sound P model_name m) as (b & m' & -> & Hrun).
  exact (run_Inv Hrun HI).
Qed.

(** [__init__] establishes the invariant. *)
Lemma init_Inv P models dflt : Inv (init P models dflt).
Proof.
  unfold init. destruct (HAILO_AVAILABLE P); [destruct (vdevice_init P)|];
    apply Inv_intro; simpl; try done; unfold count; simpl; try lia;
    by intros [? [=]].
Qed.

(** * The state invariant *)

(** The invariant holds after [__init__] and any sequence of calls. *)
Lemma Inv_reachable P models dflt (ops : list operation) :
  Inv (foldl (perform P) (init P models dflt) ops).
Proof.
  generalize (init_Inv P models dflt). generalize (init P models dflt) as m.
  induction ops as [|o ops IH]; intros m HI; [done|].
  simpl. apply IH. destruct o; simpl.
  - by apply load_model_Inv.
  - by apply chat_completion_Inv.
  - by apply get_context_usage_Inv.
  - by apply release_Inv.
Qed.

(** C9.  Every operation of the service keeps the state invariant: the model
    handle is held only under the name it was loaded for, at most one model
    handle exists (the one held), a model handle implies a device handle,
    and [VDevice()] is called at most once.  [init_Inv] establishes it. *)
Theorem operations_preserve_invariant P m model_name
    messages model temperature max_tokens seed stream :
  Inv m →
  Inv (load_model P model_name m).2
  ∧ Inv (chat_completion P messages model temperature max_tokens seed stream m).2
  ∧ Inv (release P m).2
  ∧ Inv (get_context_usage P m).2.
Proof.
  intros HI. split; [|split; [|split]].
  - by apply load_model_Inv.
  - by apply chat_completion_Inv.
  - by apply release_Inv.
  - by apply get_context_usage_Inv.
Qed.

Lemma operations_preserve_invariant_witness :
  Inv (Demo.with_llama Demo.board)
  ∧ Inv (load_model Demo.board "qwen2" (Demo.with_llama Demo.board)).2
  ∧ Inv (chat_completion Demo.board Demo.question "qwen2" (8 # 10) 2048 None
           true (Demo.with_llama Demo.board)).2
  ∧ Inv (release Demo.board (Demo.with_llama Demo.board)).2
  ∧ Inv (get_context_usage Demo.board (Demo.with_llama Demo.board)).2.
Proof.
  assert (Inv (Demo.with_llama Demo.board)) as HI.
  { constructor.
    - intros h. vm_compute. by intros [= <-].
    - vm_compute. lia.
    - vm_compute. reflexivity.
    - intros _. vm_compute. eauto.
    - vm_compute. lia. }
  split; [exact HI|].
  exact (operations_preserve_invariant Demo.board (Demo.with_llama Demo.board)
           "qwen2" Demo.question "qwen2" (8 # 10)%Q 2048%Z None true HI).
Defined.

(** * [load_model] *)




(** C8.  When [load_model] has succeeded, calling it again with the same
    name is a no-op that returns [True] with the handle already held: the
    machine, log included, is left as it is.  Over the two calls the
    constructor is called once, or not at all when the model was already
    the active one before the first call. *)
Theorem load_model_twice P model_name m :
  (load_model P model_name m).1 = Ok true →
  load_model P model_name (load_model P model_name m).2
  = (Ok true, (load_model P model_name m).2)
  ∧ count is_llm_init (calls (load_model P model_name m).2)
    = (count is_llm_init (calls m)
       + if decide (cached m model_name) then 0 else 1)%nat.
Proof.
  destruct (load_model_sound P model_name m) as (b & m1 & -> & Hrun). simpl.
  intros [= ->].
  pose proof (run_true_cached Hrun eq_refl) as Hc1.
  assert (usable P m1) as Hu1.
  { inversion Hrun as [| Hu | | | | |? Hu]; subst; [done|].
    destruct Hu as [? ?]. by split. }
  split.
  - destruct (load_model_sound P model_name m1) as (b & m2 & Hload & Hrun2).
    rewrite Hload. by inversion Hrun2; subst.
  - inversion Hrun as [| ? Hc | | | | |? ? Hnc]; subst.
    + rewrite decide_True by done. lia.
    + rewrite decide_False by done. unfold_lets. simpl.
      rewrite !count_app. destruct (llm (self m)); unfold count; simpl; lia.
Qed.

Lemma load_model_twice_witness :
  (load_model Demo.board "llama3.2" (Demo.fresh Demo.board)).1 = Ok true
  ∧ load_model Demo.board "llama3.2"
      (load_model Demo.board "llama3.2" (Demo.fresh Demo.board)).2
    = (Ok true, (load_model Demo.board "llama3.2" (Demo.fresh Demo.board)).2).
Proof.
  assert ((load_model Demo.board "llama3.2" (Demo.fresh Demo.board)).1
          = Ok true) as H by (vm_compute; reflexivity).
  split; [exact H|].
  exact (proj1 (load_model_twice Demo.board "llama3.2"
                  (Demo.fresh Demo.board) H)).
Defined.

(** * [release] *)




(** * [handle_model_info] *)

(** What [handle_model_info] does, by the kind of value under [model]. *)
Lemma handle_model_info_hashable websocket request m :
  hashable (default JNull (model request)) = true →
  (∀ name, model request = Some (JString name) →
           models_config (self m) !! name = None
           ∨ models_config (self m) !! name = Some ∅) →
  handle_model_info websocket request m
  = (Ok (websocket
         ++ [Error ("Model not found: "
                    +:+ jvalue_str (default JNull (model request)))]), m).
Proof.
  intros Hh Hnone.
  unfold handle_model_info, get_model_info, models_config_get, hash_key, send.
  destruct (model request) as [[| | |name| |]|]; try done.
  run. by destruct (Hnone name eq_refl) as [-> | ->].
Qed.

Lemma handle_model_info_unhashable websocket request m :
  hashable (default JNull (model request)) = false →
  ∃ e, handle_model_info websocket request m = (Raise e, m).
Proof.
  intros Hh.
  unfold handle_model_info, get_model_info, models_config_get, hash_key.
  destruct (model request) as [[| | |name| |]|]; try done; by eexists.
Qed.

(** C10, the claim as stated fails.  A [model_info] request whose model is
    a list names no configured model; [handle_model_info] raises on it, and
    the message [handle_request] then sends carries the text of the
    exception, not the words "Model not found". *)
Lemma model_info_unhashable_raises :
  handle_model_info [] (Demo.info_request (Some (JArray "[]")))
    (Demo.fresh Demo.board)
  = (Raise "unhashable type: 'list'", Demo.fresh Demo.board)
  ∧ handle_message Demo.board [] (Parsed (Demo.info_request (Some (JArray "[]"))))
      (Demo.fresh Demo.board)
    = (Ok [Error "unhashable type: 'list'"], Demo.fresh Demo.board)
  ∧ "unhashable type: 'list'" ≠ "Model not found: []".
Proof. split; [done|]. split; [done|]. discriminate. Qed.

(** C10, amended.  For a [model_info] request whose model is absent, or is
    a null, a boolean, a number or a string that names no configured model,
    [handle_model_info] returns after sending one message, the error "Model
    not found: " followed by the value as Python prints it ([None] when
    absent or null), and so does the loop of [handle_request]; the machine
    (service fields and log) is left as it was.  When the model is a list or
    an object, the lookup raises out of [handle_model_info]; the loop of
    [handle_request] catches it and sends one message, the error that
    carries the text of the exception; the machine is left as it was. *)
Theorem model_info_not_found P websocket request m :
  action request = Some "model_info" →
  (∀ name, model request = Some (JString name) →
           models_config (self m) !! name = None) →
  (hashable (default JNull (model request)) = true →
   handle_model_info websocket request m
   = (Ok (websocket
          ++ [Error ("Model not found: "
                     +:+ jvalue_str (default JNull (model request)))]), m)
   ∧ handle_message P websocket (Parsed request) m
     = (Ok (websocket
            ++ [Error ("Model not found: "
                       +:+ jvalue_str (default JNull (model request)))]), m))
  ∧ (hashable (default JNull (model request)) = false →
     ∃ e, handle_model_info websocket request m = (Raise e, m)
          ∧ handle_message P websocket (Parsed request) m
            = (Ok (websocket ++ [Error e]), m)).
Proof.
  intros Haction Hnone.
  assert (handle_message P websocket (Parsed request) m
          = match handle_model_info websocket request m with
            | (Ok a, m') => (Ok a, m')
            | (Raise e, m') => (Ok (websocket ++ [Error e]), m')
            end) as Hloop.
  { unfold handle_message, try_except. cbv zeta. rewrite Haction.
    by repeat (case_bool_decide; simplify_eq). }
  split; intros Hh.
  - assert (handle_model_info websocket request m
            = (Ok (websocket
                   ++ [Error ("Model not found: "
                              +:+ jvalue_str (default JNull (model request)))]),
               m)) as Hinfo.
    { apply handle_model_info_hashable; [done|]. intros name Hname. left. eauto. }
    split; [done|]. by rewrite Hloop, Hinfo.
  - destruct (handle_model_info_unhashable websocket request m Hh) as [e He].
    exists e. split; [done|]. by rewrite Hloop, He.
Qed.

Lemma model_info_not_found_witness :
  action (Demo.info_request (Some (JString "mistral"))) = Some "model_info"
  ∧ (∀ name, model (Demo.info_request (Some (JString "mistral")))
             = Some (JString name) →
             models_config (self (Demo.with_llama Demo.board)) !! name = None)
  ∧ handle_message Demo.board [] (Parsed (Demo.info_request (Some (JString "mistral"))))
      (Demo.with_llama Demo.board)
    = (Ok [Error "Model not found: mistral"], Demo.with_llama Demo.board).
Proof.
  assert (action (Demo.info_request (Some (JString "mistral")))
          = Some "model_info") as H1 by reflexivity.
  assert (∀ name, model (Demo.info_request (Some (JString "mistral")))
                  = Some (JString name) →
            models_config (self (Demo.with_llama Demo.board)) !! name = None)
    as H2 by (intros name [= <-]; vm_compute; reflexivity).
  split; [exact H1|]. split; [exact H2|].
  exact (proj2 (proj1 (model_info_not_found Demo.board []
                         (Demo.info_request (Some (JString "mistral")))
                         (Demo.with_llama Demo.board) H1 H2) eq_refl)).
Defined.

(** The same for a request without the field, and for an entry of the
    configuration that is an empty object. *)
Lemma model_info_absent websocket m :
  handle_model_info websocket (Demo.info_request None) m
  = (Ok (websocket ++ [Error "Model not found: None"]), m).
Proof. reflexivity. Qed.

Lemma model_info_empty_entry websocket request name m :
  model request = Some (JString name) →
  models_config (self m) !! name = Some ∅ →
  handle_model_info websocket request m
  = (Ok (websocket ++ [Error ("Model not found: " +:+ name)]), m).
Proof.
  intros Hname Hmc.
  rewrite handle_model_info_hashable; rewrite ?Hname; try done.
  intros name' [= <-]. by right.
Qed.

(** * The framing of the chunks *)

Lemma framed_last es :
  framed es → ∃ t, last es = Some t ∧ is_terminal t = true.
Proof. intros (tokens & t & -> & Ht). exists t. by rewrite last_snoc. Qed.

Lemma streamed_text_tokens tokens t :
  is_token t = false →
  streamed_text ((Token <$> tokens) ++ [t]) = foldr String.app "" tokens.
Proof.
  intros Ht. induction tokens as [|token tokens IH].
  - by destruct t.
  - rewrite fmap_cons. change (token +:+ streamed_text ((Token <$> tokens) ++ [t])
                               = token +:+ foldr String.app "" tokens).
    by rewrite IH.
Qed.

(** Outside the mock generator in streaming mode, the chunks are tokens
    followed by one terminal chunk. *)
Lemma chat_completion_framed P messages model temperature max_tokens seed
    stream m :
  stream = false ∨ (HAILO_AVAILABLE P = true ∧ is_Some (llm (self m))) →
  framed (chunks_of
            (chat_completion P messages model temperature max_tokens seed
               stream m).1).
Proof.
  intros Hcase.
  destruct (decide (HAILO_AVAILABLE P = true ∧ is_Some (llm (self m))))
    as [[Hav Hl]|Hmock].
  - destruct (chat_completion_real P messages model temperature max_tokens
                seed stream m Hav Hl) as (b & m1 & _ & _ & Hchat).
    destruct b.
    + destruct Hchat as (h & _ & ->). simpl. unfold generation_chunks.
      eexists (if stream then _ else []), _. split.
      * by destruct stream.
      * unfold terminal_chunk. by case_match.
    + rewrite Hchat. by exists [], (Error ("Failed to load model: " +:+ model)).
  - destruct Hcase as [-> | ?]; [|done].
    rewrite chat_completion_mock.
    + by exists [], (Complete mock_response None).
    + destruct (HAILO_AVAILABLE P), (llm (self m)) eqn:?; eauto.
      destruct Hmock. eauto.
Qed.

(** C2, at the failing input.  Without the platform, a streaming request is
    answered by the fourteen tokens of the mock sentence and nothing else:
    the sequence has no terminal chunk, so it is not framed. *)
Theorem mock_stream_not_framed :
  ¬ framed (chunks_of
              (chat_completion Demo.no_hailo Demo.question "llama3.2"
                 (8 # 10) 2048 None true (Demo.fresh Demo.no_hailo)).1).
Proof.
  intros (t & Hlast & Ht)%framed_last.
  vm_compute in Hlast. injection Hlast as <-. discriminate Ht.
Qed.

(** C3, at the failing input.  Without the platform, a streaming request
    gets one token per word of the mock sentence, each word followed by a
    blank, and no complete chunk after them. *)
Theorem mock_stream_has_no_complete :
  chunks_of (chat_completion Demo.no_hailo Demo.question "llama3.2"
               (8 # 10) 2048 None true (Demo.fresh Demo.no_hailo)).1
  = (λ word, Token (word +:+ " ")) <$> split mock_response
  ∧ length (split mock_response) = 14%nat
  ∧ List.filter is_complete
      (chunks_of (chat_completion Demo.no_hailo Demo.question "llama3.2"
                    (8 # 10) 2048 None true (Demo.fresh Demo.no_hailo)).1)
    = [].
Proof. vm_compute. repeat split. Qed.

(** The same on every platform and machine on which the mock generator is
    entered. *)
Lemma mock_stream_tokens_only P messages model temperature max_tokens seed m :
  HAILO_AVAILABLE P = false ∨ llm (self m) = None →
  Forall (λ e, is_token e = true)
    (chunks_of (chat_completion P messages model temperature max_tokens seed
                  true m).1).
Proof.
  intros Hmock. rewrite chat_completion_mock by done. simpl.
  unfold mock_tokens. by apply Forall_fmap, Forall_true.
Qed.

(** * The non-streaming content *)

(** On the accelerator, a request with [stream=False] yields no token, and
    its complete chunk, when the generation ends normally, carries the text
    the same request streams with [stream=True]. *)
Lemma accelerator_nonstream_content P messages model temperature max_tokens
    seed m :
  HAILO_AVAILABLE P = true → is_Some (llm (self m)) →
  let off := chunks_of (chat_completion P messages model temperature
                          max_tokens seed false m).1 in
  let on := chunks_of (chat_completion P messages model temperature
                         max_tokens seed true m).1 in
  List.filter is_token off = []
  ∧ (complete_contents off = [streamed_text on] ∨ complete_contents off = []).
Proof.
  intros Hav Hl off on. subst off on.
  destruct (chat_completion_real P messages model temperature max_tokens
              seed false m Hav Hl) as (b & m1 & Hload & _ & Hoff).
  destruct (chat_completion_real P messages model temperature max_tokens
              seed true m Hav Hl) as (b' & m1' & Hload' & _ & Hon).
  rewrite Hload in Hload'. injection Hload' as <- <-.
  destruct b.
  - destruct Hoff as (h & Hh & ->). destruct Hon as (h' & Hh' & ->).
    rewrite Hh in Hh'. injection Hh' as <-. simpl.
    unfold generation_chunks, terminal_chunk.
    destruct (llm_generate P (calls m1) h _) as [tokens [e|]]; simpl.
    + split; [done|]. by right.
    + split; [done|]. left. by rewrite streamed_text_tokens.
  - rewrite Hoff. simpl. split; [done|]. by right.
Qed.

(** C7, at the failing input.  Without the platform, the request with
    [stream=False] gets the mock sentence as the content of its complete
    chunk, while the tokens streamed with [stream=True] concatenate to the
    sentence followed by a blank. *)
Theorem mock_nonstream_content_differs :
  complete_contents
    (chunks_of (chat_completion Demo.no_hailo Demo.question "llama3.2"
                  (8 # 10) 2048 None false (Demo.fresh Demo.no_hailo)).1)
  = [mock_response]
  ∧ streamed_text
      (chunks_of (chat_completion Demo.no_hailo Demo.question "llama3.2"
                    (8 # 10) 2048 None true (Demo.fresh Demo.no_hailo)).1)
    = mock_response +:+ " "
  ∧ mock_response ≠ mock_response +:+ " ".
Proof.
  split; [by vm_compute|]. split; [by vm_compute|].
  intros Heq%(f_equal String.length). vm_compute in Heq. discriminate Heq.
Qed.

(** * The methods on the value a request holds *)

(** On a string they are the methods themselves. *)
Lemma chat_completion_value_string P messages name temperature max_tokens
    seed stream :
  chat_completion_value P messages (JString name) temperature max_tokens seed
    stream
  = chat_completion P messages name temperature max_tokens seed stream.
Proof. reflexivity. Qed.

(** The mock generator does not look at the model. *)
Lemma chat_completion_value_mock P messages model temperature max_tokens
    seed stream m :
  HAILO_AVAILABLE P = false ∨ llm (self m) = None →
  chat_completion_value P messages model temperature max_tokens seed stream m
  = (Ok (if stream then mock_tokens else [Complete mock_response None]), m).
Proof.
  intros Hmock.
  assert (negb (HAILO_AVAILABLE P) || bool_decide (llm (self m) = None) = true)
    as Hguard.
  { destruct Hmock as [-> | ->]; [done|]. by rewrite orb_true_r. }
  destruct model; try (by apply chat_completion_mock);
    unfold chat_completion_value; run; rewrite Hguard; by destruct stream.
Qed.

(** A value that is not a string is never loaded: [load_model] returns
    [False] or the lookup raises, unless the value is [None] and no model
    was ever active; the fields and the log are left as they are. *)
Lemma load_model_value_other P v m :
  (∀ name, v ≠ JString name) →
  (load_model_value P v m).2 = m.
Proof.
  intros Hv. unfold load_model_value, models_config_get, hash_key.
  destruct v; try (by destruct (Hv s)); run; by repeat case_match.
Qed.

(** [chat_completion] on any value returns with at least one chunk, or
    raises before it has yielded anything. *)
Lemma chat_completion_value_outcome P messages model temperature max_tokens
    seed stream m :
  (∃ chunks m',
     chat_completion_value P messages model temperature max_tokens seed
       stream m = (Ok chunks, m') ∧ chunks ≠ [])
  ∨ (∃ e m',
       chat_completion_value P messages model temperature max_tokens seed
         stream m = (Raise e, m')).
Proof.
  assert (mock_tokens ≠ []) as Hmock by (by vm_compute).
  assert (∀ m1, ∃ chunks m',
            generate_chunks P messages temperature max_tokens seed stream m1
            = (Ok chunks, m') ∧ chunks ≠ []) as Hgen.
  { intros m1. unfold generate_chunks. run.
    destruct (llm (self m1)) as [h|]; [|by eexists _, _].
    rewrite for_token_in_spec. simpl.
    destruct (llm_generate P (calls m1) h _) as [tokens [e|]]; simpl;
      eexists _, _; (split; [done|]);
      by destruct (if stream then _ else _). }
  destruct (decide (HAILO_AVAILABLE P = false ∨ llm (self m) = None))
    as [Hm|Hreal].
  { left. rewrite chat_completion_value_mock by done.
    eexists _, _. split; [done|]. by destruct stream. }
  assert (negb (HAILO_AVAILABLE P) || bool_decide (llm (self m) = None) = false)
    as Hguard.
  { destruct (HAILO_AVAILABLE P), (llm (self m)) eqn:?; try done;
      destruct Hreal; eauto. }
  destruct model as [| | |name| |].
  4: { left. rewrite chat_completion_value_string.
       destruct (decide (HAILO_AVAILABLE P = true ∧ is_Some (llm (self m))))
         as [[Hav Hl]|Hno].
       - destruct (chat_completion_real P messages name temperature max_tokens
                     seed stream m Hav Hl) as (b & m1 & _ & _ & Hchat).
         destruct b.
         + destruct Hchat as (h & _ & ->). eexists _, _. split; [done|].
           unfold generation_chunks. by destruct (if stream then _ else _).
         + rewrite Hchat. by eexists _, _.
       - destruct Hreal.
         destruct (HAILO_AVAILABLE P), (llm (self m)) eqn:?; eauto.
         destruct Hno. eauto. }
  all: unfold chat_completion_value; rewrite bind_run; unfold get_self;
    cbv beta iota; rewrite Hguard; rewrite bind_run;
    unfold load_model_value, models_config_get, hash_key; run;
    repeat (case_match; simplify_eq/=);
    try (right; by eexists _, _);
    try (left; by eexists _, _);
    left; match goal with |- context [generate_chunks _ _ _ _ _ _ ?m1] =>
            destruct (Hgen m1) as (chunks & m' & -> & ?) end; by eexists _, _.
Qed.

(** * The accelerator is never reached from the socket *)

(** [list_models] only looks at paths. *)
Lemma list_entry_quiet P item m :
  ∃ r cs, list_entry P item m = (Ok r, mkMachine (self m) (calls m ++ cs))
          ∧ count is_llm_init cs = 0%nat ∧ count is_generate cs = 0%nat.
Proof.
  destruct item as [name mc]. unfold list_entry. run.
  destruct (path_exists P (calls m) _); simpl.
  - eexists _, [_; _]. by rewrite <-(assoc_L (++)).
  - by eexists _, [_].
Qed.

Lemma list_entries_quiet P items m :
  ∃ r cs, mapM (list_entry P) items m = (Ok r, mkMachine (self m) (calls m ++ cs))
          ∧ count is_llm_init cs = 0%nat ∧ count is_generate cs = 0%nat.
Proof.
  revert m. induction items as [|item items IH]; intros m.
  - exists [], []. rewrite (right_id_L [] (++)). by destruct m.
  - change (mapM (list_entry P) (item :: items) m)
      with (bind (list_entry P item)
              (λ y, bind (mapM (list_entry P) items) (λ k, ret (y :: k))) m).
    unfold bind at 1.
    destruct (list_entry_quiet P item m) as (r1 & cs1 & -> & Hi1 & Hg1).
    unfold bind at 1.
    destruct (IH (mkMachine (self m) (calls m ++ cs1)))
      as (r2 & cs2 & -> & Hi2 & Hg2). simpl.
    exists (r1 :: r2), (cs1 ++ cs2). rewrite (assoc_L (++)), !count_app.
    split; [done|]. split; lia.
Qed.

(** Each handler returns and leaves an idle machine idle. *)
Lemma handle_chat_idle P websocket request m :
  idle m → keeps_idle (handle_chat P websocket request) m.
Proof.
  intros Hidle. unfold keeps_idle, handle_chat, mbind, M_bind, bind, get_self.
  rewrite chat_completion_value_mock by (right; apply Hidle). by eexists _, _.
Qed.

Lemma handle_generate_idle P websocket request m :
  idle m → keeps_idle (handle_generate P websocket request) m.
Proof.
  intros Hidle.
  unfold keeps_idle, handle_generate, text_completion_value, mbind, M_bind,
    bind, get_self.
  rewrite chat_completion_value_mock by (right; apply Hidle). by eexists _, _.
Qed.

Lemma handle_list_models_idle P websocket m :
  idle m → keeps_idle (handle_list_models P websocket) m.
Proof.
  intros (Hl & Hi & Hg).
  destruct (list_entries_quiet P (map_to_list (models_config (self m))) m)
    as (r & cs & Hmap & Hcs1 & Hcs2).
  unfold keeps_idle, handle_list_models, list_models.
  rewrite !bind_run. unfold get_self. cbv beta iota. rewrite Hmap.
  eexists _, _. split; [done|]. split; [done|]. simpl.
  rewrite !count_app. split; lia.
Qed.

(** [handle_model_info] leaves the machine as it is, whether it returns or
    raises. *)
Lemma handle_model_info_machine websocket request m :
  (handle_model_info websocket request m).2 = m.
Proof.
  unfold handle_model_info, get_model_info, models_config_get, hash_key. run.
  by repeat (case_match; simplify_eq/=).
Qed.

Lemma handle_context_usage_idle P websocket m :
  idle m → keeps_idle (handle_context_usage P websocket) m.
Proof.
  intros Hidle. unfold keeps_idle, handle_context_usage, get_context_usage.
  run. rewrite (proj1 Hidle). by eexists _, _.
Qed.

Lemma handle_message_idle P websocket message m :
  idle m → keeps_idle (handle_message P websocket message) m.
Proof.
  intros Hidle. destruct message as [|request]; [by eexists _, _|].
  destruct (handle_chat_idle P websocket request m Hidle)
    as (w1 & m1 & Hh1 & ?).
  destruct (handle_generate_idle P websocket request m Hidle)
    as (w2 & m2 & Hh2 & ?).
  destruct (handle_list_models_idle P websocket m Hidle)
    as (w3 & m3 & Hh3 & ?).
  destruct (handle_context_usage_idle P websocket m Hidle)
    as (w5 & m5 & Hh5 & ?).
  unfold keeps_idle, handle_message, try_except. cbv zeta.
  repeat case_bool_decide;
    rewrite ?Hh1, ?Hh2, ?Hh3, ?Hh5; try by eexists _, _.
  pose proof (handle_model_info_machine websocket request m) as Hh4.
  destruct (handle_model_info websocket request m) as [[w4|e4] m4];
    simpl in Hh4; subst m4; by eexists _, _.
Qed.

(** Whatever the platform and whatever is received on a connection of a
    freshly built service, no model is ever loaded and the accelerator never
    generates: [chat_completion] is the only caller of [load_model], and it
    calls it only when a model handle is already held. *)
Lemma requests_never_reach_accelerator P models dflt websocket received :
  keeps_idle (handle_request P websocket received) (init P models dflt).
Proof.
  assert (idle (init P models dflt)) as Hidle.
  { unfold init. by destruct (HAILO_AVAILABLE P); [destruct (vdevice_init P)|]. }
  revert Hidle. generalize (init P models dflt) as m. revert websocket.
  induction received as [|message received IH]; intros websocket m Hidle; simpl.
  - by eexists _, _.
  - destruct (handle_message_idle P websocket message m Hidle)
      as (websocket1 & m1 & Hmsg & Hidle1).
    unfold keeps_idle, mbind, M_bind, bind. rewrite Hmsg. by apply IH.
Qed.

(** Once the device is missing, every request is answered by the mock
    generator, whatever was called before. *)
Lemma mock_without_device P messages model temperature max_tokens seed stream m :
  Inv m → ¬ usable P m →
  chat_completion P messages model temperature max_tokens seed stream m
  = (Ok (if stream then mock_tokens else [Complete mock_response None]), m).
Proof.
  intros HI Hnu. apply chat_completion_mock.
  destruct (HAILO_AVAILABLE P) eqn:Hav; [right|by left].
  destruct (llm (self m)) as [h|] eqn:Hl; [|done].
  destruct Hnu. split; [done|]. apply (inv_device _ HI). by rewrite Hl.
Qed.

(** C1, at the failing input.  On a board on which the platform is
    imported, the device initialised, llama3.2 configured and its artifact
    present, the first chat request for llama3.2 is answered by the mock
    generator: the machine is left as it was, no model is loaded and the
    accelerator is not asked to generate. *)
Theorem fresh_board_chat_is_mock :
  usable Demo.board (Demo.fresh Demo.board)
  ∧ resolve (self (Demo.fresh Demo.board)) "llama3.2"
    = Some "/models/llama3.2.hef"
  ∧ path_exists Demo.board (calls (Demo.fresh Demo.board))
      "/models/llama3.2.hef" = true
  ∧ chat_completion Demo.board Demo.question "llama3.2" (8 # 10) 2048 None
      true (Demo.fresh Demo.board)
    = (Ok mock_tokens, Demo.fresh Demo.board)
  ∧ calls (Demo.fresh Demo.board) = [CVDeviceInit Returns].
Proof.
  split; [split; [done | by eexists]|].
  split; [by vm_compute|]. split; [done|].
  split; [by apply chat_completion_mock; right | done].
Qed.

(** * What the generator and the handlers always do *)


Lemma send_each_app websocket chunks : send_each websocket chunks = websocket ++ chunks.
Proof.
  revert websocket. induction chunks as [|chunk chunks IH]; intros websocket.
  - by rewrite (right_id_L [] (++)).
  - simpl. rewrite IH. unfold send. by rewrite <-(assoc_L (++)).
Qed.



Lemma handle_chat_forwards P websocket request m :
  handle_chat P websocket request m
  = match chat_completion_value P (default [] (messages request))
            (requested_model (self m) request)
            (default (8 # 10)%Q (temperature request))
            (default 2048%Z (max_tokens request)) (seed request)
            (default true (stream request)) m with
    | (Ok chunks, m') => (Ok (websocket ++ chunks), m')
    | (Raise e, m') => (Raise e, m')
    end.
Proof.
  unfold handle_chat. rewrite bind_run. unfold get_self. cbv beta iota.
  rewrite bind_run.
  destruct (chat_completion_value _ _ _ _ _ _ _ m) as [[chunks|e] m']; [|done].
  unfold mret, M_ret, ret. by rewrite send_each_app.
Qed.

Lemma handle_generate_forwards P websocket request m :
  handle_generate P websocket request m
  = match text_completion_value P (default "" (prompt request))
            (requested_model (self m) request)
            (default (8 # 10)%Q (temperature request))
            (default 2048%Z (max_tokens request)) (seed request)
            (default true (stream request)) m with
    | (Ok chunks, m') => (Ok (websocket ++ chunks), m')
    | (Raise e, m') => (Raise e, m')
    end.
Proof.
  unfold handle_generate. rewrite bind_run. unfold get_self. cbv beta iota.
  rewrite bind_run.
  destruct (text_completion_value _ _ _ _ _ _ _ m) as [[chunks|e] m']; [|done].
  unfold mret, M_ret, ret. by rewrite send_each_app.
Qed.



(** What a handler does with the outcome of the generator it drives: the
    chunks are sent after what was sent before, an exception is passed
    on. *)
Lemma handle_chat_outcome P websocket request m :
  (∃ chunks m', chunks ≠ []
     ∧ handle_chat P websocket request m = (Ok (websocket ++ chunks), m'))
  ∨ (∃ e m', handle_chat P websocket request m = (Raise e, m')).
Proof.
  rewrite handle_chat_forwards.
  destruct (chat_completion_value_outcome P (default [] (messages request))
              (requested_model (self m) request)
              (default (8 # 10)%Q (temperature request))
              (default 2048%Z (max_tokens request)) (seed request)
              (default true (stream request)) m)
    as [(chunks & m' & -> & ?)|(e & m' & ->)]; [left|right]; by eexists _, _.
Qed.

Lemma handle_generate_outcome P websocket request m :
  (∃ chunks m', chunks ≠ []
     ∧ handle_generate P websocket request m = (Ok (websocket ++ chunks), m'))
  ∨ (∃ e m', handle_generate P websocket request m = (Raise e, m')).
Proof.
  rewrite handle_generate_forwards. unfold text_completion_value. cbv zeta.
  destruct (chat_completion_value_outcome P
              [mkMessage "user" (default "" (prompt request))]
              (requested_model (self m) request)
              (default (8 # 10)%Q (temperature request))
              (default 2048%Z (max_tokens request)) (seed request)
              (default true (stream request)) m)
    as [(chunks & m' & -> & ?)|(e & m' & ->)]; [left|right]; by eexists _, _.
Qed.



(** * Every message is answered *)

Lemma handle_list_models_replies P websocket m :
  replies (handle_list_models P websocket) websocket m.
Proof.
  destruct (list_entries_quiet P (map_to_list (models_config (self m))) m)
    as (r & cs & Hmap & _).
  unfold replies, handle_list_models, list_models.
  rewrite !bind_run. unfold get_self. cbv beta iota. rewrite Hmap.
  by eexists [_], _.
Qed.

Lemma handle_model_info_outcome websocket request m :
  (∃ sent, handle_model_info websocket request m = (Ok (websocket ++ [sent]), m))
  ∨ (∃ e, handle_model_info websocket request m = (Raise e, m)).
Proof.
  unfold handle_model_info, get_model_info, models_config_get, hash_key, send.
  run. repeat case_match; simplify_eq/=; eauto.
Qed.

Lemma handle_context_usage_replies P websocket m :
  replies (handle_context_usage P websocket) websocket m.
Proof.
  unfold replies, handle_context_usage, get_context_usage, send. run.
  repeat case_match; simplify_eq/=; by eexists [_], _.
Qed.

Lemma handle_message_answers P websocket message m :
  replies (handle_message P websocket message) websocket m.
Proof.
  destruct message as [|request]; [by eexists [_], _|].
  destruct (handle_list_models_replies P websocket m) as (s3 & m3 & Hh3 & ?).
  destruct (handle_context_usage_replies P websocket m)
    as (s5 & m5 & Hh5 & ?).
  unfold replies, handle_message, try_except. cbv zeta.
  repeat case_bool_decide; rewrite ?Hh3, ?Hh5;
    try (first [by eexists _, _ | by eexists [_], _]).
  - destruct (handle_chat_outcome P websocket request m)
      as [(s1 & m1 & ? & ->)|(e & m1 & ->)];
      first [by eexists _, _ | by eexists [_], _].
  - destruct (handle_generate_outcome P websocket request m)
      as [(s2 & m2 & ? & ->)|(e & m2 & ->)];
      first [by eexists _, _ | by eexists [_], _].
  - destruct (handle_model_info_outcome websocket request m)
      as [(s4 & ->)|(e & ->)]; by eexists [_], _.
Qed.

(** X3.  Whatever the message (malformed, of an unknown action, or a
    request that fails), [handle_request]'s loop body returns without
    raising and has sent at least one message, after the ones that were sent
    before: nothing sent earlier is dropped or reordered. *)
Theorem handle_message_replies P websocket message m :
  ∃ sent m',
    handle_message P websocket message m = (Ok (websocket ++ sent), m')
    ∧ sent ≠ [].
Proof. apply handle_message_answers. Qed.

(** X4.  [handle_request] serves every message it receives: it returns
    without raising, and it has sent at least as many messages as it
    received, after the ones that were sent before. *)
Theorem handle_request_serves_all P websocket received m :
  ∃ sent m',
    handle_request P websocket received m = (Ok (websocket ++ sent), m')
    ∧ (length received ≤ length sent)%nat.
Proof.
  revert websocket m.
  induction received as [|message received IH]; intros websocket m; simpl.
  - exists [], m. by rewrite (right_id_L [] (++)).
  - destruct (handle_message_answers P websocket message m)
      as (sent1 & m1 & Hmsg & Hne).
    rewrite bind_run, Hmsg.
    destruct (IH (websocket ++ sent1) m1) as (sent2 & m2 & -> & Hlen).
    exists (sent1 ++ sent2), m2. rewrite (assoc_L (++)). split; [done|].
    rewrite length_app. destruct sent1; [done|]. simpl. lia.
Qed.

(** X5.  A request whose action is none of the five known ones, or that has
    no action, gets exactly one error message that names the action
    ([None] when there is none); nothing is called and the machine is left
    as it was. *)
Theorem unknown_action_error P websocket request m :
  (∀ a, action request = Some a → a ∉ known_actions) →
  handle_message P websocket (Parsed request) m
  = (Ok (websocket
         ++ [Error ("Unknown action: " +:+ py_str (action request))]), m).
Proof.
  intros Hunknown. unfold handle_message, try_except. cbv zeta.
  repeat case_bool_decide; try done;
    match goal with
    | H : action request = Some ?a |- _ =>
      destruct (Hunknown a H); unfold known_actions; set_solver
    end.
Qed.

Lemma unknown_action_error_witness :
  (∀ a, action Bench.pull_request = Some a → a ∉ known_actions)
  ∧ handle_message Demo.board [] (Parsed Bench.pull_request)
      (Demo.fresh Demo.board)
    = (Ok [Error "Unknown action: pull"], Demo.fresh Demo.board).
Proof.
  assert (∀ a, action Bench.pull_request = Some a → a ∉ known_actions) as H.
  { intros a [= <-]. apply (bool_decide_unpack _). by vm_compute. }
  split; [exact H|].
  exact (unknown_action_error Demo.board [] Bench.pull_request
           (Demo.fresh Demo.board) H).
Defined.

(** * Generations on the accelerator *)

Lemma token_chunks_generation P cs stream g :
  token_chunks (generation_chunks P cs stream g)
  = if stream then length g.1 else 0%nat.
Proof.
  unfold token_chunks, generation_chunks.
  rewrite List.filter_app, length_app.
  assert (is_token (terminal_chunk P cs stream g) = false) as Ht.
  { unfold terminal_chunk. by destruct g.2. }
  simpl. rewrite Ht. simpl. rewrite Nat.add_0_r.
  destruct stream; [|done].
  generalize g.1 as tokens.
  induction tokens as [|token tokens IH]; [done|].
  rewrite fmap_cons. simpl. by f_equal.
Qed.

(** X6.  A request for the model that is already active loads nothing: the
    only call made is the generation on the handle that is held, the fields
    of the service are left as they were, and the chunks are those of that
    generation. *)
Theorem chat_on_active_model P messages model temperature max_tokens seed
    stream m h :
  HAILO_AVAILABLE P = true → is_Some (vdevice (self m)) →
  current_model (self m) = Some model → llm (self m) = Some h →
  chat_completion P messages model temperature max_tokens seed stream m
  = (Ok (generation_chunks P
           (calls m ++ [CGenerate h (mkKwargs messages temperature max_tokens seed)
                          (llm_generate P (calls m) h
                             (mkKwargs messages temperature max_tokens seed))])
           stream
           (llm_generate P (calls m) h
              (mkKwargs messages temperature max_tokens seed))),
     mkMachine (self m)
       (calls m ++ [CGenerate h (mkKwargs messages temperature max_tokens seed)
                      (llm_generate P (calls m) h
                         (mkKwargs messages temperature max_tokens seed))])).
Proof.
  intros Hav Hdev Hcur Hl.
  destruct (chat_completion_real P messages model temperature max_tokens seed
              stream m Hav) as (b & m1 & _ & Hrun & Hchat); [by eexists|].
  assert (usable P m) as Hu by done.
  assert (cached m model) as Hc by (split; [done | by eexists]).
  inversion Hrun; subst; try done.
  destruct Hchat as (h' & Hh' & ->). rewrite Hl in Hh'. by injection Hh' as <-.
Qed.

Lemma chat_on_active_model_witness :
  HAILO_AVAILABLE Demo.board = true
  ∧ current_model (self (Demo.with_llama Demo.board)) = Some "llama3.2"
  ∧ (chat_completion Demo.board Demo.question "llama3.2" (8 # 10) 2048 None
       true (Demo.with_llama Demo.board)).1
    = Ok [Token "Hello"; Token ","; Token " world";
          Complete "" (Some (mkStats 3 1000 1000))].
Proof.
  assert (HAILO_AVAILABLE Demo.board = true) as H1 by reflexivity.
  assert (is_Some (vdevice (self (Demo.with_llama Demo.board)))) as H2
    by (vm_compute; eauto).
  assert (current_model (self (Demo.with_llama Demo.board)) = Some "llama3.2")
    as H3 by (vm_compute; reflexivity).
  assert (llm (self (Demo.with_llama Demo.board))
          = Some (mkLLM 2 "/models/llama3.2.hef" "llama3.2")) as H4
    by (vm_compute; reflexivity).
  split; [exact H1|]. split; [exact H3|].
  rewrite (chat_on_active_model Demo.board Demo.question "llama3.2" (8 # 10)%Q
             2048%Z None true (Demo.with_llama Demo.board) _ H1 H2 H3 H4).
  vm_compute. reflexivity.
Defined.

(** X7.  When a generation ends with a complete chunk that carries
    statistics, the two durations are equal; with [stream=True] the content
    is empty and [eval_count] is the number of token chunks sent before it;
    with [stream=False] the complete chunk is the only chunk. *)
Theorem complete_chunk_statistics P messages model temperature max_tokens
    seed stream m c st :
  last (chunks_of (chat_completion P messages model temperature max_tokens
                     seed stream m).1)
  = Some (Complete c (Some st)) →
  eval_duration st = total_duration st
  ∧ (stream = true →
     c = ""
     ∧ eval_count st
       = token_chunks (chunks_of (chat_completion P messages model temperature
                                    max_tokens seed stream m).1))
  ∧ (stream = false →
     chunks_of (chat_completion P messages model temperature max_tokens seed
                  stream m).1
     = [Complete c (Some st)]).
Proof.
  destruct (decide (HAILO_AVAILABLE P = true ∧ is_Some (llm (self m))))
    as [[Hav Hl]|Hmock].
  - destruct (chat_completion_real P messages model temperature max_tokens
                seed stream m Hav Hl) as (b & m1 & _ & _ & Hchat).
    destruct b; [|by rewrite Hchat].
    destruct Hchat as (h & _ & ->). simpl.
    rewrite token_chunks_generation. unfold generation_chunks.
    rewrite last_snoc. unfold terminal_chunk.
    destruct (llm_generate P (calls m1) h _) as [tokens [e|]]; simpl; [done|].
    intros [= <- <-]. simpl. split; [done|].
    split; intros ->; [done|]. done.
  - rewrite chat_completion_mock; last first.
    { destruct (HAILO_AVAILABLE P), (llm (self m)) eqn:?; eauto.
      destruct Hmock. eauto. }
    destruct stream; simpl; [|done].
    intros Hlast. vm_compute in Hlast. discriminate Hlast.
Qed.

Lemma complete_chunk_statistics_witness :
  last (chunks_of (chat_completion Demo.board Demo.question "llama3.2"
                     (8 # 10) 2048 None true (Demo.with_llama Demo.board)).1)
  = Some (Complete "" (Some (mkStats 3 1000 1000)))
  ∧ eval_duration (mkStats 3 1000 1000) = total_duration (mkStats 3 1000 1000).
Proof.
  assert (last (chunks_of (chat_completion Demo.board Demo.question "llama3.2"
                     (8 # 10) 2048 None true (Demo.with_llama Demo.board)).1)
          = Some (Complete "" (Some (mkStats 3 1000 1000)))) as H
    by (vm_compute; reflexivity).
  split; [exact H|].
  exact (proj1 (complete_chunk_statistics Demo.board Demo.question "llama3.2"
                  (8 # 10)%Q 2048%Z None true (Demo.with_llama Demo.board)
                  "" (mkStats 3 1000 1000) H)).
Defined.

(** X8.  When a model handle is held and the load of the requested model
    fails, the request gets exactly one chunk, the error that names the
    requested model, and the accelerator is not asked to generate. *)
Theorem chat_load_failure P messages model temperature max_tokens seed
    stream m :
  HAILO_AVAILABLE P = true → is_Some (llm (self m)) →
  (load_model P model m).1 = Ok false →
  chat_completion P messages model temperature max_tokens seed stream m
  = (Ok [Error ("Failed to load model: " +:+ model)], (load_model P model m).2)
  ∧ count is_generate
      (calls (chat_completion P messages model temperature max_tokens seed
                stream m).2)
    = count is_generate (calls m).
Proof.
  intros Hav Hl Hfail.
  destruct (chat_completion_real P messages model temperature max_tokens seed
              stream m Hav Hl) as (b & m1 & Hload & Hrun & Hchat).
  rewrite Hload in Hfail |- *. simpl in *. injection Hfail as ->.
  rewrite Hchat. split; [done|]. simpl.
  destruct (run_calls Hrun) as (cs & -> & _ & _ & Hg).
  rewrite count_app. lia.
Qed.

Lemma chat_load_failure_witness :
  HAILO_AVAILABLE Demo.board = true
  ∧ (load_model Demo.board "ghost" (Demo.with_llama Demo.board)).1 = Ok false
  ∧ (chat_completion Demo.board Demo.question "ghost" (8 # 10) 2048 None true
       (Demo.with_llama Demo.board)).1
    = Ok [Error "Failed to load model: ghost"].
Proof.
  assert (HAILO_AVAILABLE Demo.board = true) as H1 by reflexivity.
  assert (is_Some (llm (self (Demo.with_llama Demo.board)))) as H2
    by (vm_compute; eauto).
  assert ((load_model Demo.board "ghost" (Demo.with_llama Demo.board)).1
          = Ok false) as H3 by (vm_compute; reflexivity).
  split; [exact H1|]. split; [exact H3|].
  exact (f_equal fst (proj1 (chat_load_failure Demo.board Demo.question "ghost"
                               (8 # 10)%Q 2048%Z None true
                               (Demo.with_llama Demo.board) H1 H2 H3))).
Defined.

(** X9.  Switching models: when another handle is held and [load_model]
    succeeds for a model that is not the active one, it has checked the
    artifact, then released the old handle, then constructed the new one, in
    that order and with no other call; the new handle is held under the
    requested name and was built from the configured artifact. *)
Theorem model_switch_order P model_name m old :
  llm (self m) = Some old → ¬ cached m model_name →
  (load_model P model_name m).1 = Ok true →
  ∃ hef h,
    resolve (self m) model_name = Some hef
    ∧ calls (load_model P model_name m).2
      = calls m ++ [CPathExists hef true; CLLMRelease old Returns;
                    CLLMInit h Returns]
    ∧ llm (self (load_model P model_name m).2) = Some h
    ∧ current_model (self (load_model P model_name m).2) = Some model_name
    ∧ llm_name h = model_name ∧ llm_hef h = hef.
Proof.
  intros Hold Hnc.
  destruct (load_model_sound P model_name m) as (b & m' & -> & Hrun). simpl.
  intros [= ->]. inversion Hrun as [| | | | | |hef]; subst; [done|].
  unfold_lets. rewrite Hold. simpl.
  eexists hef, _. split; [done|]. split; [|done].
  by rewrite <-(assoc_L (++)).
Qed.

Lemma model_switch_order_witness :
  llm (self (Demo.with_llama Demo.board))
  = Some (mkLLM 2 "/models/llama3.2.hef" "llama3.2")
  ∧ ¬ cached (Demo.with_llama Demo.board) "qwen2"
  ∧ (load_model Demo.board "qwen2" (Demo.with_llama Demo.board)).1 = Ok true
  ∧ ∃ hef h,
      resolve (self (Demo.with_llama Demo.board)) "qwen2" = Some hef
      ∧ calls (load_model Demo.board "qwen2" (Demo.with_llama Demo.board)).2
        = calls (Demo.with_llama Demo.board)
          ++ [CPathExists hef true;
              CLLMRelease (mkLLM 2 "/models/llama3.2.hef" "llama3.2") Returns;
              CLLMInit h Returns]
      ∧ llm (self (load_model Demo.board "qwen2"
                     (Demo.with_llama Demo.board)).2) = Some h
      ∧ current_model (self (load_model Demo.board "qwen2"
                               (Demo.with_llama Demo.board)).2) = Some "qwen2"
      ∧ llm_name h = "qwen2" ∧ llm_hef h = hef.
Proof.
  assert (llm (self (Demo.with_llama Demo.board))
          = Some (mkLLM 2 "/models/llama3.2.hef" "llama3.2")) as H1
    by (vm_compute; reflexivity).
  assert (¬ cached (Demo.with_llama Demo.board) "qwen2") as H2.
  { apply (bool_decide_unpack _). by vm_compute. }
  assert ((load_model Demo.board "qwen2" (Demo.with_llama Demo.board)).1
          = Ok true) as H3 by (vm_compute; reflexivity).
  split; [exact H1|]. split; [exact H2|]. split; [exact H3|].
  exact (model_switch_order Demo.board "qwen2" (Demo.with_llama Demo.board)
           _ H1 H2 H3).
Defined.

(** * After [release] *)

Lemma release_ok_clears P m :
  (release P m).1 = Ok () →
  llm (self (release P m).2) = None ∧ vdevice (self (release P m).2) = None.
Proof.
  destruct m as [[v l c mc d] cs]. unfold release. run.
  destruct l as [h|]; simpl.
  - destruct (llm_release P cs h); simpl; [|done].
    destruct v as [dv|]; simpl; [|done].
    by destruct (vdevice_release P _ dv).
  - destruct v as [dv|]; simpl; [|done].
    by destruct (vdevice_release P _ dv).
Qed.

Lemma release_nothing_held P m :
  llm (self m) = None → vdevice (self m) = None → release P m = (Ok (), m).
Proof.
  destruct m as [[v l c mc d] cs]. simpl. intros -> ->. reflexivity.
Qed.

Lemma load_model_without_device P model_name m :
  vdevice (self m) = None → load_model P model_name m = (Ok false, m).
Proof.
  intros Hv. unfold load_model. run. rewrite Hv. simpl.
  by rewrite orb_true_r.
Qed.

(** X10.  [release] is idempotent: after a [release] that returned, a second
    one makes no call, changes nothing and returns. *)
Theorem release_twice P m :
  (release P m).1 = Ok () →
  release P (release P m).2 = (Ok (), (release P m).2).
Proof.
  intros [Hl Hv]%release_ok_clears. by apply release_nothing_held.
Qed.

Lemma release_twice_witness :
  (release Demo.board (Demo.with_llama Demo.board)).1 = Ok ()
  ∧ release Demo.board (release Demo.board (Demo.with_llama Demo.board)).2
    = (Ok (), (release Demo.board (Demo.with_llama Demo.board)).2).
Proof.
  assert ((release Demo.board (Demo.with_llama Demo.board)).1 = Ok ()) as H
    by (vm_compute; reflexivity).
  split; [exact H|].
  exact (release_twice Demo.board (Demo.with_llama Demo.board) H).
Defined.

(** X11.  After a [release] that returned, the service is back in mock
    mode for good: every [load_model] returns [False] without calling
    anything, and every request is answered by the mock generator. *)
Theorem after_release_mock_only P m model_name messages model temperature
    max_tokens seed stream :
  (release P m).1 = Ok () →
  load_model P model_name (release P m).2 = (Ok false, (release P m).2)
  ∧ chat_completion P messages model temperature max_tokens seed stream
      (release P m).2
    = (Ok (if stream then mock_tokens else [Complete mock_response None]),
       (release P m).2).
Proof.
  intros [Hl Hv]%release_ok_clears. split.
  - by apply load_model_without_device.
  - apply chat_completion_mock. by right.
Qed.

Lemma after_release_mock_only_witness :
  (release Demo.board (Demo.with_llama Demo.board)).1 = Ok ()
  ∧ load_model Demo.board "llama3.2"
      (release Demo.board (Demo.with_llama Demo.board)).2
    = (Ok false, (release Demo.board (Demo.with_llama Demo.board)).2).
Proof.
  assert ((release Demo.board (Demo.with_llama Demo.board)).1 = Ok ()) as H
    by (vm_compute; reflexivity).
  split; [exact H|].
  exact (proj1 (after_release_mock_only Demo.board (Demo.with_llama Demo.board)
                  "llama3.2" Demo.question "llama3.2" (8 # 10)%Q 2048%Z None
                  true H)).
Defined.

(** * What no call changes *)

Lemma load_model_keeps P model_name m :
  models_config (self (load_model P model_name m).2) = models_config (self m)
  ∧ default_model (self (load_model P model_name m).2) = default_model (self m)
  ∧ vdevice (self (load_model P model_name m).2) = vdevice (self m).
Proof.
  destruct (load_model_sound P model_name m) as (b & m' & -> & Hrun).
  by destruct Hrun.
Qed.

Lemma chat_completion_keeps P messages model temperature max_tokens seed
    stream m :
  let m' := (chat_completion P messages model temperature max_tokens seed
               stream m).2 in
  models_config (self m') = models_config (self m)
  ∧ default_model (self m') = default_model (self m)
  ∧ vdevice (self m') = vdevice (self m).
Proof.
  intros m'. subst m'.
  destruct (decide (HAILO_AVAILABLE P = true ∧ is_Some (llm (self m))))
    as [[Hav Hl]|Hmock].
  - destruct (chat_completion_real P messages model temperature max_tokens
                seed stream m Hav Hl) as (b & m1 & Hload & _ & Hchat).
    pose proof (load_model_keeps P model m) as Hk. rewrite Hload in Hk.
    destruct b.
    + by destruct Hchat as (h & _ & ->).
    + by rewrite Hchat.
  - rewrite chat_completion_mock; [done|].
    destruct (HAILO_AVAILABLE P), (llm (self m)) eqn:?; eauto.
    destruct Hmock. eauto.
Qed.

Lemma get_context_usage_self P m : self (get_context_usage P m).2 = self m.
Proof.
  unfold get_context_usage. run. repeat case_match; by simplify_eq/=.
Qed.

Lemma release_keeps P m :
  models_config (self (release P m).2) = models_config (self m)
  ∧ default_model (self (release P m).2) = default_model (self m).
Proof.
  destruct m as [[v l c mc d] cs]. unfold release. run.
  repeat case_match; by simplify_eq/=.
Qed.

Lemma release_no_device P m :
  vdevice (self m) = None → vdevice (self (release P m).2) = None.
Proof.
  destruct m as [[v l c mc d] cs]. simpl. intros ->. unfold release. run.
  repeat case_match; by simplify_eq/=.
Qed.

(** X12.  The model registry is read-only at run time: no sequence of calls
    of [load_model], [chat_completion], [get_context_usage] and [release]
    changes the configured models or the default model. *)
Theorem configuration_is_immutable P m (ops : list operation) :
  models_config (self (foldl (perform P) m ops)) = models_config (self m)
  ∧ default_model (self (foldl (perform P) m ops)) = default_model (self m).
Proof.
  revert m. induction ops as [|o ops IH]; intros m; [done|]. simpl.
  destruct (IH (perform P m o)) as [-> ->].
  destruct o as [model_name|msgs mdl temp maxt sd strm| |]; simpl.
  - by destruct (load_model_keeps P model_name m) as (? & ? & _).
  - by destruct (chat_completion_keeps P msgs mdl temp maxt sd strm m)
      as (? & ? & _).
  - by rewrite get_context_usage_self.
  - apply release_keeps.
Qed.

(** X13.  The device handle is never acquired again: once the service holds
    none (the initialisation failed, or [release] cleared it), it holds none
    after any sequence of calls. *)
Theorem device_never_reacquired P m (ops : list operation) :
  vdevice (self m) = None →
  vdevice (self (foldl (perform P) m ops)) = None.
Proof.
  revert m. induction ops as [|o ops IH]; intros m Hv; [done|]. simpl.
  apply IH. destruct o as [model_name|msgs mdl temp maxt sd strm| |]; simpl.
  - destruct (load_model_keeps P model_name m) as (_ & _ & ->). done.
  - destruct (chat_completion_keeps P msgs mdl temp maxt sd strm m)
      as (_ & _ & ->). done.
  - by rewrite get_context_usage_self.
  - by apply release_no_device.
Qed.

Lemma device_never_reacquired_witness :
  vdevice (self (release Demo.board (Demo.with_llama Demo.board)).2) = None
  ∧ vdevice (self (foldl (perform Demo.board)
                     (release Demo.board (Demo.with_llama Demo.board)).2
                     [OpLoadModel "llama3.2"; OpGetContextUsage; OpRelease]))
    = None.
Proof.
  assert (vdevice (self (release Demo.board (Demo.with_llama Demo.board)).2)
          = None) as H by (vm_compute; reflexivity).
  split; [exact H|].
  exact (device_never_reacquired Demo.board _
           [OpLoadModel "llama3.2"; OpGetContextUsage; OpRelease] H).
Defined.

(** * At every moment of the log *)

Lemma prefix_snoc_inv {A} (pre cs : list A) c :
  pre `prefix_of` cs ++ [c] → pre = cs ++ [c] ∨ pre `prefix_of` cs.
Proof.
  intros [k Hk]. destruct k as [|x k _] using rev_ind.
  - left. by rewrite (right_id_L [] (++)) in Hk.
  - right. rewrite (assoc_L (++)) in Hk.
    apply app_inj_tail in Hk as [-> _]. by exists k.
Qed.

Lemma never_two_now cs : never_two cs → (length (live_handles cs) ≤ 1)%nat.
Proof. intros H. by apply H. Qed.

Lemma never_two_snoc cs c :
  never_two cs → (length (live_handles (cs ++ [c])) ≤ 1)%nat →
  never_two (cs ++ [c]).
Proof.
  intros Hcs Hc pre [-> | Hpre]%prefix_snoc_inv; [done|]. by apply Hcs.
Qed.

Lemma track_quiet live c :
  is_handle_birth c = false → (length (track live c) ≤ length live)%nat.
Proof.
  destruct c as [| | |h []|h []| | |]; simpl; try done; intros _; try lia.
  apply length_filter.
Qed.

Lemma never_two_quiet cs ext :
  Forall (λ c, is_handle_birth c = false) ext →
  never_two cs → never_two (cs ++ ext).
Proof.
  intros Hext. revert cs.
  induction Hext as [|c ext Hc _ IH]; intros cs Hcs.
  - by rewrite (right_id_L [] (++)).
  - rewrite (cons_middle c), (assoc_L (++)). apply IH.
    apply never_two_snoc; [done|]. rewrite live_snoc.
    pose proof (track_quiet (live_handles cs) c Hc).
    pose proof (never_two_now cs Hcs). lia.
Qed.

Lemma never_two_load_model P model_name m :
  Inv m → never_two (calls m) → never_two (calls (load_model P model_name m).2).
Proof.
  intros HI Hcs.
  destruct (load_model_sound P model_name m) as (b & m' & -> & Hrun). simpl.
  destruct Hrun; unfold_lets; simpl; try done.
  - apply never_two_quiet; [|done]. by repeat constructor.
  - apply never_two_quiet; [|done]. by repeat constructor.
  - apply never_two_quiet; [|apply never_two_quiet; [|done]].
    + by repeat constructor.
    + constructor; [done|]. destruct (llm (self m)); by repeat constructor.
  - apply never_two_snoc.
    + apply never_two_quiet; [|done].
      constructor; [done|]. destruct (llm (self m)); by repeat constructor.
    + rewrite live_snoc, live_app, (inv_live _ HI). simpl.
      destruct (llm (self m)); simpl; rewrite ?filter_ne_self; simpl; lia.
Qed.

Lemma never_two_perform P m o :
  Inv m → never_two (calls m) → never_two (calls (perform P m o)).
Proof.
  intros HI Hcs. destruct o as [model_name|msgs mdl temp maxt sd strm| |]; simpl.
  - by apply never_two_load_model.
  - destruct (decide (HAILO_AVAILABLE P = true ∧ is_Some (llm (self m))))
      as [[Hav Hl]|Hmock].
    + destruct (chat_completion_real P msgs mdl temp maxt sd strm m Hav Hl)
        as (b & m1 & Hload & _ & Hchat).
      pose proof (never_two_load_model P mdl m HI Hcs) as H1.
      rewrite Hload in H1. destruct b.
      * destruct Hchat as (h & _ & ->). simpl.
        apply never_two_quiet; [by repeat constructor | done].
      * by rewrite Hchat.
    + rewrite chat_completion_mock; [done|].
      destruct (HAILO_AVAILABLE P), (llm (self m)) eqn:?; eauto.
      destruct Hmock. eauto.
  - unfold get_context_usage. run. repeat case_match; simplify_eq/=; try done.
    all: apply never_two_quiet; [by repeat constructor | done].
  - destruct m as [[v l c mc d] cs]. unfold release. run.
    repeat case_match; simplify_eq/=; try done.
    all: rewrite <-?(assoc_L (++)); simpl;
      (apply never_two_quiet; [by repeat constructor | done]).
Qed.

(** X14.  At no moment of any run do two model handles exist: in the log
    of collaborator calls left by [__init__] and any sequence of calls of
    [load_model], [chat_completion], [get_context_usage] and [release], every
    prefix has at most one handle that was constructed and not yet released.
    A previous handle is always released before the next one is built. *)
Theorem never_two_handles P models dflt (ops : list operation) :
  never_two (calls (foldl (perform P) (init P models dflt) ops)).
Proof.
  assert (never_two (calls (init P models dflt))) as H0.
  { intros pre Hpre. unfold init in Hpre.
    destruct (HAILO_AVAILABLE P); [destruct (vdevice_init P)|]; simpl in Hpre.
    - apply (prefix_snoc_inv _ []) in Hpre as [-> | ->%prefix_nil_inv];
        simpl; lia.
    - apply (prefix_snoc_inv _ []) in Hpre as [-> | ->%prefix_nil_inv];
        simpl; lia.
    - apply prefix_nil_inv in Hpre as ->. simpl. lia. }
  revert H0. generalize (init_Inv P models dflt).
  generalize (init P models dflt) as m.
  induction ops as [|o ops IH]; intros m HI Hcs; [done|]. simpl.
  apply IH.
  - destruct o; simpl.
    + by apply load_model_Inv.
    + by apply chat_completion_Inv.
    + by apply get_context_usage_Inv.
    + by apply release_Inv.
  - by apply never_two_perform.
Qed.

(** * [get_context_usage] *)

(** X15.  [get_context_usage] never raises and never touches the fields of
    the service; it reports a value other than zero only when the platform
    is there, a model handle is held and the query on that handle returned
    that value: a query that raises is reported as zero. *)
Theorem context_usage_is_best_effort P m :
  ∃ n, (get_context_usage P m).1 = Ok n
       ∧ self (get_context_usage P m).2 = self m
       ∧ (n ≠ 0%Z →
          HAILO_AVAILABLE P = true
          ∧ ∃ h, llm (self m) = Some h
                 ∧ llm_get_context_usage_size P (calls m) h = Some n).
Proof.
  unfold get_context_usage. run.
  destruct (llm (self m)) as [h|] eqn:Hl; [|by exists 0%Z].
  destruct (HAILO_AVAILABLE P) eqn:Hav; [|by exists 0%Z]. simpl.
  destruct (llm_get_context_usage_size P (calls m) h) as [n|] eqn:Hq; simpl.
  - exists n. eauto 10.
  - by exists 0%Z.
Qed.

(** * [list_models] *)

Lemma list_entry_spec P item m :
  ∃ e cs, list_entry P item m = (Ok e, mkMachine (self m) (calls m ++ cs))
          ∧ describes e item
          ∧ Forall (λ c, is_path_call c = true) cs
          ∧ ((∀ cs' p, path_exists P cs' p = false) →
             me_size e = 0%Z ∧ count is_path_stat cs = 0%nat).
Proof.
  destruct item as [name mc]. unfold list_entry. run.
  destruct (path_exists P (calls m) _) eqn:Hex; simpl.
  - eexists _, [_; _]. rewrite <-(assoc_L (++)). split; [done|].
    split; [done|]. split; [by repeat constructor|].
    intros Hnone. by rewrite Hnone in Hex.
  - eexists _, [_]. split; [done|]. split; [done|].
    split; [by repeat constructor | done].
Qed.

Lemma list_entries_spec P items m :
  ∃ r cs, mapM (list_entry P) items m
          = (Ok r, mkMachine (self m) (calls m ++ cs))
          ∧ Forall2 describes r items
          ∧ Forall (λ c, is_path_call c = true) cs
          ∧ ((∀ cs' p, path_exists P cs' p = false) →
             Forall (λ e, me_size e = 0%Z) r ∧ count is_path_stat cs = 0%nat).
Proof.
  revert m. induction items as [|item items IH]; intros m.
  - exists [], []. rewrite (right_id_L [] (++)). destruct m.
    split; [done|]. split; [constructor|]. split; [constructor|].
    intros _. split; [constructor | done].
  - change (mapM (list_entry P) (item :: items) m)
      with (bind (list_entry P item)
              (λ y, bind (mapM (list_entry P) items) (λ k, ret (y :: k))) m).
    unfold bind at 1.
    destruct (list_entry_spec P item m) as (e & cs1 & -> & He & Hp1 & Hz1).
    unfold bind at 1.
    destruct (IH (mkMachine (self m) (calls m ++ cs1)))
      as (r & cs2 & -> & Hr & Hp2 & Hz2). simpl.
    exists (e :: r), (cs1 ++ cs2). rewrite (assoc_L (++)).
    split; [done|]. split; [by constructor|].
    split; [by apply Forall_app|].
    intros Hnone. destruct (Hz1 Hnone) as [? ?], (Hz2 Hnone) as [? ?].
    split; [by constructor|]. rewrite count_app. lia.
Qed.

Lemma list_models_spec P m :
  ∃ r cs, list_models P m = (Ok r, mkMachine (self m) (calls m ++ cs))
          ∧ Forall2 describes r (map_to_list (models_config (self m)))
          ∧ Forall (λ c, is_path_call c = true) cs
          ∧ ((∀ cs' p, path_exists P cs' p = false) →
             Forall (λ e, me_size e = 0%Z) r ∧ count is_path_stat cs = 0%nat).
Proof.
  destruct (list_entries_spec P (map_to_list (models_config (self m))) m)
    as (r & cs & Hmap & ?). exists r, cs. split; [|done].
  unfold list_models. rewrite bind_run. unfold get_self. cbv beta iota.
  exact Hmap.
Qed.






(** * Traffic on a service that holds no model *)

Lemma only_paths_refl m : only_paths_since m m.
Proof. split; [done|]. exists []. by rewrite (right_id_L [] (++)). Qed.

Lemma only_paths_step m0 m cs :
  only_paths_since m0 m → Forall (λ c, is_path_call c = true) cs →
  only_paths_since m0 (mkMachine (self m) (calls m ++ cs)).
Proof.
  intros (Hs & cs0 & Hc & Hp) Hcs. split; [done|].
  exists (cs0 ++ cs). simpl. rewrite Hc, (assoc_L (++)).
  split; [done | by apply Forall_app].
Qed.

Lemma handle_message_only_paths P websocket message m0 m :
  llm (self m0) = None → only_paths_since m0 m →
  ∃ websocket' m', handle_message P websocket message m = (Ok websocket', m')
                   ∧ only_paths_since m0 m'.
Proof.
  intros Hl0 Hsince.
  assert (llm (self m) = None) as Hl by (by rewrite (proj1 Hsince)).
  destruct message as [|request]; [by eexists _, _|].
  unfold handle_message, try_except. cbv zeta.
  repeat case_bool_decide.
  - unfold handle_chat. rewrite bind_run. unfold get_self. cbv beta iota.
    rewrite bind_run, chat_completion_value_mock by eauto. by eexists _, _.
  - unfold handle_generate, text_completion_value. rewrite bind_run.
    unfold get_self. cbv beta iota zeta.
    rewrite bind_run, chat_completion_value_mock by eauto. by eexists _, _.
  - destruct (list_models_spec P m) as (r & cs & Hlist & _ & Hp & _).
    unfold handle_list_models. rewrite bind_run, Hlist.
    eexists _, _. split; [done|]. by apply only_paths_step.
  - destruct (handle_model_info_outcome websocket request m)
      as [(sent & ->)|(e & ->)]; by eexists _, _.
  - unfold handle_context_usage, get_context_usage. run. rewrite Hl.
    by eexists _, _.
  - by eexists _, _.
Qed.

Lemma handle_request_only_paths P websocket received m0 m :
  llm (self m0) = None → only_paths_since m0 m →
  ∃ websocket' m', handle_request P websocket received m = (Ok websocket', m')
                   ∧ only_paths_since m0 m'.
Proof.
  intros Hl0. revert websocket m.
  induction received as [|message received IH]; intros websocket m Hsince; simpl.
  - by eexists _, _.
  - destruct (handle_message_only_paths P websocket message m0 m Hl0 Hsince)
      as (websocket1 & m1 & Hmsg & Hsince1).
    rewrite bind_run, Hmsg. by apply IH.
Qed.

Lemma init_no_model P models dflt : llm (self (init P models dflt)) = None.
Proof.
  unfold init. by destruct (HAILO_AVAILABLE P); [destruct (vdevice_init P)|].
Qed.

(** X19.  Nothing that arrives on a connection changes the service built by
    [__init__]: after any sequence of messages its fields are the ones
    [__init__] set (no model handle, no active model), and the only
    collaborator calls made since are calls to the file system. *)
Theorem traffic_leaves_service_as_built P models dflt websocket received :
  self (handle_request P websocket received (init P models dflt)).2
  = self (init P models dflt)
  ∧ ∃ cs, calls (handle_request P websocket received (init P models dflt)).2
          = calls (init P models dflt) ++ cs
          ∧ Forall (λ c, is_path_call c = true) cs.
Proof.
  destruct (handle_request_only_paths P websocket received
              (init P models dflt) (init P models dflt)
              (init_no_model P models dflt) (only_paths_refl _))
    as (websocket' & m' & -> & Hsince).
  exact Hsince.
Qed.

Lemma path_calls_release_nothing cs :
  Forall (λ c, is_path_call c = true) cs → count is_llm_release cs = 0%nat.
Proof.
  induction 1 as [|c cs Hc _ IH]; [done|].
  change (c :: cs) with ([c] ++ cs). rewrite count_app, IH.
  by destruct c.
Qed.

(** X20.  Shutting down after serving: on the service built by [__init__],
    after any sequence of messages, [cleanup] makes one call, the release of
    the device handle when [__init__] obtained one, and none otherwise; no
    model handle is ever released, since none was ever built. *)
Theorem cleanup_after_serving P models dflt websocket received :
  calls (cleanup P
           (handle_request P websocket received (init P models dflt)).2).2
  = calls (handle_request P websocket received (init P models dflt)).2
    ++ device_released P
         (calls (handle_request P websocket received (init P models dflt)).2)
         (vdevice (self (init P models dflt)))
  ∧ count is_llm_release
      (calls (cleanup P
                (handle_request P websocket received
                   (init P models dflt)).2).2)
    = 0%nat.
Proof.
  destruct (handle_request_only_paths P websocket received
              (init P models dflt) (init P models dflt)
              (init_no_model P models dflt) (only_paths_refl _))
    as (websocket' & m' & -> & Hs & cs & Hc & Hp). simpl.
  pose proof (init_no_model P models dflt) as Hl. rewrite <-Hs in Hl |- *.
  assert (count is_llm_release (calls m') = 0%nat) as Hcount.
  { rewrite Hc, count_app, (path_calls_release_nothing cs Hp).
    unfold init. by destruct (HAILO_AVAILABLE P); [destruct (vdevice_init P)|]. }
  destruct m' as [[v l c mc d] cs']. simpl in *. subst l.
  unfold cleanup, release. run.
  destruct v as [dv|]; simpl.
  - destruct (vdevice_release P cs' dv); simpl;
      (split; [done|]); rewrite count_app, Hcount; done.
  - rewrite (right_id_L [] (++)). done.
Qed.

(** * What [load_model] never builds *)

(** X21.  [load_model] calls the [LLM] constructor only for a name that the
    configuration resolves to a non-empty artifact path which it has just
    found to exist; the constructor call is then the last call it makes, on
    that path.  No handle is ever built for an unknown model or a missing
    artifact. *)
Theorem constructor_only_for_found_artifact P model_name m :
  count is_llm_init (calls (load_model P model_name m).2)
  ≠ count is_llm_init (calls m) →
  ∃ hef h o,
    resolve (self m) model_name = Some hef
    ∧ path_exists P (calls m) hef = true
    ∧ llm_hef h = hef ∧ llm_name h = model_name
    ∧ last (calls (load_model P model_name m).2) = Some (CLLMInit h o).
Proof.
  destruct (load_model_sound P model_name m) as (b & m' & -> & Hrun). simpl.
  intros Hcount. destruct Hrun; unfold_lets; simpl in *; try done.
  - destruct Hcount. rewrite count_app. unfold count. simpl. lia.
  - destruct Hcount. rewrite count_app. unfold count. simpl. lia.
  - eexists hef, _, _. rewrite last_snoc. by repeat split.
  - eexists hef, _, _. rewrite last_snoc. by repeat split.
Qed.

Lemma constructor_only_for_found_artifact_witness :
  count is_llm_init
    (calls (load_model Demo.board "llama3.2" (Demo.fresh Demo.board)).2)
  ≠ count is_llm_init (calls (Demo.fresh Demo.board))
  ∧ ∃ hef h o,
      resolve (self (Demo.fresh Demo.board)) "llama3.2" = Some hef
      ∧ path_exists Demo.board (calls (Demo.fresh Demo.board)) hef = true
      ∧ llm_hef h = hef ∧ llm_name h = "llama3.2"
      ∧ last (calls (load_model Demo.board "llama3.2"
                       (Demo.fresh Demo.board)).2)
        = Some (CLLMInit h o).
Proof.
  assert (count is_llm_init
            (calls (load_model Demo.board "llama3.2" (Demo.fresh Demo.board)).2)
          ≠ count is_llm_init (calls (Demo.fresh Demo.board))) as H
    by (vm_compute; lia).
  split; [exact H|].
  exact (constructor_only_for_found_artifact Demo.board "llama3.2"
           (Demo.fresh Demo.board) H).
Defined.
